(** * Command dispatch of kook-ts-cordis: a shallow embedding

    The development follows the class [CommandInstance] with the function
    [parseArgsStringToArgv] (the module that [commander.ts] imports as
    [./command]; in the sources it is the second half of [bot.ts]) and the
    class [Commander] of [services/commander/commander.ts].

    Conventions.
    - A JavaScript string is a [string], a sequence of code units; the
      code only ever compares single units with a space, a double quote or a
      backslash, so the width of a unit plays no role.
    - An index is a [Z], because [indexOf] answers [-1].
    - The dynamically keyed object [params] is a [gmap string JS.Value] of
      its own properties, written through [JS.assign].
    - The registry [Map<Context, CommandInstance[]>] is an association list:
      a JavaScript [Map] iterates in insertion order, and dispatch depends on
      that order.
    - Effects are a trace of [Event]s next to a completion. *)

From Stdlib Require Import ZArith Ascii String List Lia.
From stdpp Require Import base option list strings gmap.

Local Open Scope string_scope.
Local Open Scope list_scope.

(** ** JavaScript primitives used by the sources *)

Module JS.

Definition chars (s : string) : list ascii := list_ascii_of_string s.
Definition str (l : list ascii) : string := string_of_list_ascii l.

(** [s.length] *)
Definition length (s : string) : Z := Z.of_nat (String.length s).

(** [s.indexOf(c)] for a one-unit needle: the first position, or [-1]. *)
Fixpoint indexOf_from (c : ascii) (l : list ascii) (i : Z) : Z :=
  match l with
  | [] => (-1)%Z
  | x :: r => if Ascii.eqb x c then i else indexOf_from c r (i + 1)%Z
  end.

Definition indexOf (s : string) (c : ascii) : Z := indexOf_from c (chars s) 0%Z.

Definition clamp (len i : Z) : Z := Z.max 0 (Z.min i len).

(** [s.substring(a, b)]: both ends are clamped to [0 .. s.length] and
    swapped when they are out of order. *)
Definition substring2 (s : string) (a b : Z) : string :=
  let len := length s in
  let a' := clamp len a in
  let b' := clamp len b in
  let lo := Z.min a' b' in
  let hi := Z.max a' b' in
  str (take (Z.to_nat (hi - lo)) (drop (Z.to_nat lo) (chars s))).

(** [s.substring(a)] *)
Definition substring1 (s : string) (a : Z) : string :=
  substring2 s a (length s).

(** [s.slice(1, -1)]: the string without its first and its last unit. *)
Definition slice_1_m1 (s : string) : string :=
  let l := chars s in
  str (take (Nat.pred (Nat.pred (List.length l))) (drop 1 l)).

(** [s.startsWith(p)] *)
Fixpoint startsWith_l (p s : list ascii) : bool :=
  match p, s with
  | [], _ => true
  | _ :: _, [] => false
  | a :: p', b :: s' => if Ascii.eqb a b then startsWith_l p' s' else false
  end.

Definition startsWith (s p : string) : bool := startsWith_l (chars p) (chars s).

(** [array.includes(x)] on an array of strings *)
Definition includes (l : list string) (x : string) : bool :=
  existsb (String.eqb x) l.

(** [array.toString()], which joins with commas. *)
Fixpoint toString (l : list string) : string :=
  match l with
  | [] => ""
  | [x] => x
  | x :: r => x +:+ "," +:+ toString r
  end.

(** The values that travel through the hook bus: [void | string | boolean]
    by the declared types, together with [null] and numbers, which an
    untyped listener can hand back as well. *)
Inductive Value :=
| Undefined
| Null
| Bool (b : bool)
| Str (s : string)
| Num (z : Z).

(** [typeof v == 'string'] *)
Definition is_string (v : Value) : bool :=
  match v with Str _ => true | _ => false end.

(** Truthiness, as [if (v)] and [!v] see it. *)
Definition truthy (v : Value) : bool :=
  match v with
  | Undefined | Null => false
  | Bool b => b
  | Str s => negb (String.eqb s "")
  | Num z => negb (z =? 0)%Z
  end.

Definition falsy (v : Value) : bool := negb (truthy v).

(** [array[i]]: [undefined] out of range. *)
Definition at_index (l : list string) (i : nat) : Value :=
  match l !! i with
  | Some s => Str s
  | None => Undefined
  end.

(** [o[k] = v] on a plain object [o = {}] whose own properties are the map,
    for a value that is a string or [undefined]: the key [__proto__] is the
    accessor that the object inherits from [Object.prototype], whose setter
    ignores a value that is neither an object nor [null], so that write
    stores nothing; every other key becomes an own property. *)
Definition assign (o : gmap string Value) (k : string) (v : Value) : gmap string Value :=
  if String.eqb k "__proto__" then o else <[k := v]> o.

Inductive Error :=
| TypeError (what : string)
| Thrown (payload : string).

(** How a promise settles. *)
Inductive Settled (A : Type) :=
| Resolved (v : A)
| Rejected (e : Error).

Arguments Resolved {A} v.
Arguments Rejected {A} e.

(** The tree handed to [JSON.stringify]. *)
#[warnings="-register-all"]
Inductive Json :=
| JString (s : string)
| JBool (b : bool)
| JArray (items : list Json)
| JObject (fields : list (string * Json)).

End JS.

(** Modelled from the spec: [remove] is imported from the cosmokit package,
    which is not part of the sources; section 4.3 has the positional sequence
    with the command head itself removed if present. It is [indexOf]
    followed by [splice(index, 1)]: the first occurrence goes, the rest
    stays in order. *)
Fixpoint remove (xs : list string) (item : string) : list string :=
  match xs with
  | [] => []
  | x :: r => if String.eqb x item then r else x :: remove r item
  end.

(** ** The tokenizer, [parseArgsStringToArgv] *)

Definition backslash : ascii := "\"%char.
Definition dquote : ascii := ascii_of_nat 34.
Definition space : ascii := " "%char.

(** The four locals of the function body. *)
Record Scan := mkScan {
  args : list string;
  inQuotes : bool;
  escape : bool;
  arg : list ascii
}.

Definition scan_start : Scan := mkScan [] false false [].

(** One turn of the [for] loop, on [current = value[i]]. *)
Definition scan_step (st : Scan) (current : ascii) : Scan :=
  if escape st then
    mkScan (args st) (inQuotes st) false (arg st ++ [current])
  else if Ascii.eqb current backslash then
    mkScan (args st) (inQuotes st) true (arg st)
  else if Ascii.eqb current dquote then
    mkScan (args st) (negb (inQuotes st)) (escape st) (arg st)
  else if Ascii.eqb current space && negb (inQuotes st) then
    if Nat.ltb 0 (length (arg st)) then
      mkScan (args st ++ [JS.str (arg st)]) (inQuotes st) (escape st) []
    else st
  else
    mkScan (args st) (inQuotes st) (escape st) (arg st ++ [current]).

(** The loop, [i] running over the units of [value] from left to right. *)
Fixpoint scan_loop (st : Scan) (value : list ascii) : Scan :=
  match value with
  | [] => st
  | current :: rest => scan_loop (scan_step st current) rest
  end.

(** The statements after the loop. *)
Definition scan_finish (st : Scan) : list string :=
  if Nat.ltb 0 (length (arg st)) then args st ++ [JS.str (arg st)]
  else args st.

Definition parseArgsStringToArgv (value : string) : list string :=
  scan_finish (scan_loop scan_start (JS.chars value)).

(** The tokens read from a scanning state that holds none yet. *)
Definition scanned (q e : bool) (cur rest : list ascii) : list string :=
  scan_finish (scan_loop (mkScan [] q e cur) rest).

(** *** The tokenizer as section 4.1 words it

    A second definition, written from the sentences of the specification
    and not from the code: a relation between the scanning mode, the text
    still to read and the tokens it yields. [cur] is the current token,
    [quoted] the inside-quotes mode. *)

Inductive Tokens : bool -> list ascii -> list ascii -> list string -> Prop :=
| tok_escape quoted cur c rest out :
    (* a backslash escapes the next character verbatim *)
    Tokens quoted (cur ++ [c]) rest out ->
    Tokens quoted cur (backslash :: c :: rest) out
| tok_trailing_escape quoted cur out :
    (* a backslash with nothing after it escapes nothing *)
    Tokens quoted cur [] out ->
    Tokens quoted cur [backslash] out
| tok_quote quoted cur rest out :
    (* a double quote toggles the mode and is not emitted *)
    Tokens (negb quoted) cur rest out ->
    Tokens quoted cur (dquote :: rest) out
| tok_space_ends cur rest out :
    (* an unescaped, unquoted space ends the current token *)
    cur <> [] ->
    Tokens false [] rest out ->
    Tokens false cur (space :: rest) (JS.str cur :: out)
| tok_space_drops rest out :
    (* empty tokens are dropped *)
    Tokens false [] rest out ->
    Tokens false [] (space :: rest) out
| tok_other quoted cur c rest out :
    (* all other characters accumulate into the current token *)
    c <> backslash -> c <> dquote -> (c <> space \/ quoted = true) ->
    Tokens quoted (cur ++ [c]) rest out ->
    Tokens quoted cur (c :: rest) out
| tok_flush quoted cur :
    (* a trailing non-empty token is flushed at end of input *)
    cur <> [] ->
    Tokens quoted cur [] [JS.str cur]
| tok_end quoted :
    Tokens quoted [] [] [].

(** [tokenize text toks]: the specification's [tokenize(text)] is [toks]. *)
Definition tokenize (text : string) (toks : list string) : Prop :=
  Tokens false [] (JS.chars text) toks.

(** ** The signature parser inside the constructor of [CommandInstance] *)

(** The units of [l] before the first [rb], and what follows that [rb]. *)
Fixpoint until_close (rb : ascii) (l : list ascii) : option (list ascii * list ascii) :=
  match l with
  | [] => None
  | x :: r =>
      if Ascii.eqb x rb then Some ([], r)
      else match until_close rb r with
           | Some (body, rest) => Some (x :: body, rest)
           | None => None
           end
  end.

(** [others.match(/<[^>]+>/g)] and [others.match(/\[[^\]]+\]/g)], for the
    bracket pair [lb], [rb]: at an [lb], one or more units that are not [rb]
    and then an [rb] make a match, and the search goes on behind it; anywhere
    else it moves on by one unit. The fuel is the length of the text. *)
Fixpoint match_all (fuel : nat) (lb rb : ascii) (l : list ascii) : list string :=
  match fuel with
  | O => []
  | S fuel' =>
      match l with
      | [] => []
      | x :: r =>
          if Ascii.eqb x lb then
            match until_close rb r with
            | Some (y :: body, rest) =>
                JS.str (lb :: y :: body ++ [rb]) :: match_all fuel' lb rb rest
            | _ => match_all fuel' lb rb r
            end
          else match_all fuel' lb rb r
      end
  end.

(** [text.match(re) || []] *)
Definition matches (lb rb : ascii) (text : string) : list string :=
  match_all (String.length text) lb rb (JS.chars text).

(** ** Sessions, bots and what dispatch does to the outside *)

(** The fields of the message session that the sources read:
    [session.data.content], [session.channelId], [session.data.msg_id] and
    [session.data.extra.author.avatar]. *)
Record Session := {
  content : string;
  channelId : string;
  msg_id : string;
  avatar : string
}.

Inductive MessageType := card.

(** The third argument of [sendMessage]. *)
Record SendOptions := {
  type : option MessageType;
  quote : option string
}.

(** One call of [bot.sendMessage(channel, content, options?)]. *)
Record Outgoing := {
  channel : string;
  body : string;
  opts : option SendOptions
}.

(** The bot, as far as dispatch uses it: whether the promise that
    [sendMessage] returns is rejected, and with what. *)
Record Bot := {
  sendMessage : Outgoing -> option JS.Error
}.

Section Dispatch.

(** The type-flag package is imported, not part of the sources: the schema
    type [T], the flags object it computes and the function itself are
    parameters. *)
Context {Schema FlagValues : Type}.

(** What [typeFlag] returns: the parsed flags and the positional array [_]. *)
Record TypeFlag := {
  flags : FlagValues;
  positionals : list string
}.

Variable typeFlag : Schema -> list string -> TypeFlag.

(** The object handed to the handler, [{ ...argv, ...params }]: the keys of
    [params] lie over those that type-flag produced. *)
Record Argv := {
  parsed : TypeFlag;
  params : gmap string JS.Value
}.

(** What a call of the handler comes to: [Awaitable<void | string>], or an
    error thrown in its body. *)
Inductive HandlerResult :=
| Returns (result : option string)
| Throws (e : JS.Error).

Definition callbackFunction : Type := Argv -> Bot -> Session -> HandlerResult.

(** The class [CommandInstance]. The class declares no property [aliases]
    and its constructor assigns none, while [Commander] reads [obj.aliases]:
    the slot is [None] (the read yields [undefined]) on every instance the
    constructor builds, and [Some l] on an object to which other code has
    attached an array. *)
Record CommandInstance := {
  name : string;
  description : string;
  options : Schema;
  commandFunction : option callbackFunction;
  requiredMatches : list string;
  optionalMatches : list string;
  aliases : option (list string)
}.

(** [new CommandInstance(name, desc, options)] *)
Definition new_CommandInstance (name0 desc : string) (options0 : Schema) : CommandInstance :=
  let index := JS.indexOf name0 space in
  let others := JS.substring1 name0 index in
  {| name := JS.substring2 name0 0 index;
     description := desc;
     options := options0;
     commandFunction := None;
     requiredMatches := matches "<" ">" others;
     optionalMatches := matches "[" "]" others;
     aliases := None |}.

(** [action(callback)] *)
Definition action (c : CommandInstance) (callback : callbackFunction) : CommandInstance :=
  {| name := name c;
     description := description c;
     options := options c;
     commandFunction := Some callback;
     requiredMatches := requiredMatches c;
     optionalMatches := optionalMatches c;
     aliases := aliases c |}.

(** What an observer of dispatch can see. *)
Inductive Event :=
| Sent (m : Outgoing)                       (* [bot.sendMessage] was called *)
| Invoked (command : string) (argv : Argv)  (* the handler was called *)
| Emitted (hook : string) (command : string) (* [ctx.parallel(hook, obj, ...)] *)
| Logged (e : JS.Error).                    (* [logger.error(e)] *)

(** *** [CommandInstance.execute] *)

(** The first loop, from index [i] on: [params[name] = argv._[i]], a write
    into the plain object [params = {}]. *)
Fixpoint bindRequired (i : nat) (required : list string) (pos : list string)
    (acc : gmap string JS.Value) : gmap string JS.Value :=
  match required with
  | [] => acc
  | m :: rest =>
      bindRequired (S i) rest pos (JS.assign acc (JS.slice_1_m1 m) (JS.at_index pos i))
  end.

(** The second loop, from index [i] on; it also stops when
    [i + requiredMatches.length] reaches [argv._.length]. *)
Fixpoint bindOptional (i : nat) (optional : list string) (nreq : nat) (pos : list string)
    (acc : gmap string JS.Value) : gmap string JS.Value :=
  match optional with
  | [] => acc
  | m :: rest =>
      if Nat.ltb (i + nreq) (length pos) then
        bindOptional (S i) rest nreq pos
          (JS.assign acc (JS.slice_1_m1 m) (JS.at_index pos (i + nreq)))
      else acc
  end.

(** Both loops, starting from [params = {}]. *)
Definition bindParams (c : CommandInstance) (pos : list string) : gmap string JS.Value :=
  bindOptional 0 (optionalMatches c) (length (requiredMatches c)) pos
    (bindRequired 0 (requiredMatches c) pos ∅).

(** [argv._] after [remove(argv._, this.name)]. *)
Definition positionalsOf (c : CommandInstance) (possible : string) : list string :=
  remove (positionals (typeFlag (options c) (parseArgsStringToArgv possible))) (name c).

Definition missingRequired (session : Session) : Outgoing :=
  {| channel := channelId session;
     body := "缺少必要参数";
     opts := Some {| type := None; quote := Some (msg_id session) |} |}.

Definition replyOf (session : Session) (result : string) : Outgoing :=
  {| channel := channelId session; body := result; opts := None |}.

(** [async execute(possible, bot, session)]: the trace, and how the promise
    settles. The function has no [return] with a value, so it resolves with
    [undefined]. The send in the arity branch is not awaited: its failure
    does not reach the promise of [execute]. *)
Definition execute (c : CommandInstance) (possible : string) (bot : Bot) (session : Session)
    : list Event * JS.Settled JS.Value :=
  let tf := typeFlag (options c) (parseArgsStringToArgv possible) in
  let pos := remove (positionals tf) (name c) in
  if Nat.ltb (length pos) (length (requiredMatches c)) then
    ([Sent (missingRequired session)], JS.Resolved JS.Undefined)
  else
    let argv := {| parsed := {| flags := flags tf; positionals := pos |};
                   params := bindParams c pos |} in
    match commandFunction c with
    | None => ([], JS.Rejected (JS.TypeError "this.commandFunction is not a function"))
    | Some f =>
        match f argv bot session with
        | Throws e => ([Invoked (name c) argv], JS.Rejected e)
        | Returns None => ([Invoked (name c) argv], JS.Resolved JS.Undefined)
        | Returns (Some result) =>
            if JS.truthy (JS.Str result) then
              match sendMessage bot (replyOf session result) with
              | Some e =>
                  ([Invoked (name c) argv; Sent (replyOf session result)], JS.Rejected e)
              | None =>
                  ([Invoked (name c) argv; Sent (replyOf session result)],
                   JS.Resolved JS.Undefined)
              end
            else ([Invoked (name c) argv], JS.Resolved JS.Undefined)
        end
    end.

(** *** The registry of [Commander] *)

(** A scoping context: its identity as an object (the key of the [Map]) and
    its [filter] over sessions. *)
Record Context := {
  cid : nat;
  filter : Session -> bool
}.

Definition same_context (a b : Context) : bool := Nat.eqb (cid a) (cid b).

Definition Registry : Type := list (Context * list CommandInstance).

(** [map.has(k)] *)
Definition map_has (m : Registry) (k : Context) : bool :=
  existsb (fun e => same_context (fst e) k) m.

(** [map.get(k)] *)
Fixpoint map_get (m : Registry) (k : Context) : option (list CommandInstance) :=
  match m with
  | [] => None
  | (k', v) :: r => if same_context k' k then Some v else map_get r k
  end.

(** [map.get(k).push(c)]: the array held under [k] grows in place. *)
Fixpoint map_push (m : Registry) (k : Context) (c : CommandInstance) : Registry :=
  match m with
  | [] => []
  | (k', v) :: r =>
      if same_context k' k then (k', v ++ [c]) :: r else (k', v) :: map_push r k c
  end.

(** [map.set(k, v)]: a new key goes last, a known key keeps its place. *)
Fixpoint map_set (m : Registry) (k : Context) (v : list CommandInstance) : Registry :=
  match m with
  | [] => [(k, v)]
  | (k', v') :: r =>
      if same_context k' k then (k', v) :: r else (k', v') :: map_set r k v
  end.

(** [map.delete(k)], which the disposal hook of a context runs. *)
Definition map_delete (m : Registry) (k : Context) : Registry :=
  List.filter (fun e => negb (same_context (fst e) k)) m.

(** The hook bus as [Commander] meets it: what [ctx.bail] hands back for
    'command/before-parse' and what [ctx.serial] resolves to for
    'command/before-execute'. The bus itself is not part of the sources.
    The answers are values: a listener that throws, which rejects the
    promise of [bail] or of [serial], is outside this model. *)
Record Bus := {
  before_parse : string -> Bot -> Session -> JS.Value;
  before_execute : CommandInstance -> Bot -> Session -> JS.Value
}.

Record Commander := {
  _commands : Registry;
  prefix : string;
  ctx : Bus
}.

(** [Commander.command(commandName, description, options)], called from the
    context [caller]: the new registry state and the instance returned. *)
Definition command (cmdr : Commander) (caller : Context)
    (commandName description0 : string) (options0 : Schema) : Commander * CommandInstance :=
  let c := new_CommandInstance commandName description0 options0 in
  let m :=
    if map_has (_commands cmdr) caller then map_push (_commands cmdr) caller c
    else map_set (_commands cmdr) caller [c] in
  ({| _commands := m; prefix := prefix cmdr; ctx := ctx cmdr |}, c).

(** The disposable that [command] leaves with the context. *)
Definition dispose (cmdr : Commander) (context : Context) : Commander :=
  {| _commands := map_delete (_commands cmdr) context;
     prefix := prefix cmdr; ctx := ctx cmdr |}.

(** *** [Commander.setupCommandParser] *)

(** The fast-fuzzy package and [JSON.stringify] are not part of the sources:
    [search(term, candidates, { keySelector })] and the serializer are
    parameters. *)
Variable search : string -> list CommandInstance -> (CommandInstance -> string) -> list CommandInstance.
Variable stringify : JS.Json -> string.

(** How the middleware ends: it called [next()], it returned, or its promise
    is rejected (the error reaches whoever runs the middleware chain). *)
Inductive Outcome :=
| CalledNext
| Returned
| Failed (e : JS.Error).

(** [Commander.CardTemplete(commands, input, avatar)] before serialization. *)
Definition cardContent (commands : list (string * string)) : string :=
  fold_left (fun acc b => acc +:+ "**" +:+ fst b +:+ "** - *" +:+ snd b +:+ "*" +:+ JS.str [ascii_of_nat 10])
    commands ("**指令** - *描述* " +:+ JS.str [ascii_of_nat 10]).

Definition cardTree (commands : list (string * string)) (input avatar0 : string) : JS.Json :=
  JS.JArray [
    JS.JObject [
      ("type", JS.JString "card");
      ("size", JS.JString "lg");
      ("theme", JS.JString "warning");
      ("modules", JS.JArray [
        JS.JObject [
          ("type", JS.JString "header");
          ("text", JS.JObject [
            ("type", JS.JString "plain-text");
            ("content", JS.JString "相似指令提示") ]) ];
        JS.JObject [
          ("type", JS.JString "section");
          ("text", JS.JObject [
            ("type", JS.JString "kmarkdown");
            ("content", JS.JString (cardContent commands)) ]) ];
        JS.JObject [
          ("type", JS.JString "context");
          ("elements", JS.JArray [
            JS.JObject [
              ("type", JS.JString "plain-text");
              ("content", JS.JString "匹配触发：") ];
            JS.JObject [
              ("type", JS.JString "image");
              ("src", JS.JString avatar0);
              ("alt", JS.JString "");
              ("size", JS.JString "lg");
              ("circle", JS.JBool false) ];
            JS.JObject [
              ("type", JS.JString "kmarkdown");
              ("content", JS.JString input) ] ]) ] ]) ] ].

Definition CardTemplete (commands : list (string * string)) (input avatar0 : string) : string :=
  stringify (cardTree commands input avatar0).

(** One turn of [result.map(item => ...)]: reading [length] of an absent
    [aliases] throws. *)
Definition suggestionLine (item : CommandInstance) : JS.Settled (string * string) :=
  match aliases item with
  | None => JS.Rejected (JS.TypeError "Cannot read properties of undefined (reading 'length')")
  | Some al =>
      JS.Resolved
        (name item +:+ " " +:+
           (if negb (Nat.eqb (length al) 0) then "(" +:+ JS.toString al +:+ ")" else ""),
         description item)
  end.

Fixpoint suggestionLines (result : list CommandInstance) : JS.Settled (list (string * string)) :=
  match result with
  | [] => JS.Resolved []
  | item :: rest =>
      match suggestionLine item with
      | JS.Rejected e => JS.Rejected e
      | JS.Resolved line =>
          match suggestionLines rest with
          | JS.Rejected e => JS.Rejected e
          | JS.Resolved lines => JS.Resolved (line :: lines)
          end
      end
  end.

Definition quoted (session : Session) (text : string) : Outgoing :=
  {| channel := channelId session;
     body := text;
     opts := Some {| type := None; quote := Some (msg_id session) |} |}.

Definition noMatch (session : Session) : Outgoing := quoted session "找不到相关指令".

Definition cardMessage (session : Session) (lines : list (string * string)) : Outgoing :=
  {| channel := channelId session;
     body := CardTemplete lines (content session) (avatar session);
     opts := Some {| type := Some card; quote := Some (msg_id session) |} |}.

(** The statements behind the matching loop: the fuzzy search over
    [commandArray] and the reply. *)
Definition suggest (commandInputMain : string) (commandArray : list CommandInstance)
    (session : Session) : list Event * Outcome :=
  let result := search commandInputMain commandArray name in
  if Nat.eqb (length result) 0 then ([Sent (noMatch session)], Returned)
  else
    match suggestionLines result with
    | JS.Rejected e => ([], Failed e)
    | JS.Resolved lines => ([Sent (cardMessage session lines)], Returned)
    end.

(** The body of the [if] inside the matching loop, for the matched [obj]:
    the before-execute hook, then [execute] with its [then] and [catch].
    The chain is started and not awaited; its events are part of the trace
    of the same dispatch. *)
Definition runMatched (cmdr : Commander) (obj : CommandInstance) (args0 : string)
    (bot : Bot) (session : Session) : list Event * Outcome :=
  match before_execute (ctx cmdr) obj bot session with
  | JS.Str result => ([Sent (quoted session result)], Returned)
  | _ =>
      match execute obj args0 bot session with
      | (tr, JS.Resolved r) =>
          if JS.truthy r then (tr ++ [Emitted "command/execute" (name obj)], Returned)
          else (tr, Returned)
      | (tr, JS.Rejected e) => (tr ++ [Logged e], Returned)
      end
  end.

(** The matching loop over [meetCommands]; [commandArray] collects the
    commands that did not match. Reading [includes] of an absent [aliases]
    throws. *)
Fixpoint matchLoop (cmdr : Commander) (commandInputMain args0 : string)
    (meetCommands commandArray : list CommandInstance) (bot : Bot) (session : Session)
    : list Event * Outcome :=
  match meetCommands with
  | [] => suggest commandInputMain commandArray session
  | obj :: rest =>
      if String.eqb commandInputMain (name obj) then runMatched cmdr obj args0 bot session
      else
        match aliases obj with
        | None =>
            ([], Failed (JS.TypeError "Cannot read properties of undefined (reading 'includes')"))
        | Some al =>
            if JS.includes al commandInputMain then runMatched cmdr obj args0 bot session
            else matchLoop cmdr commandInputMain args0 rest (commandArray ++ [obj]) bot session
        end
  end.

(** The commands of every context whose [filter] accepts the session, in
    the order of the [Map]. *)
Fixpoint meetCommandsOf (m : Registry) (session : Session) : list CommandInstance :=
  match m with
  | [] => []
  | (context, commands) :: r =>
      if filter context session then commands ++ meetCommandsOf r session
      else meetCommandsOf r session
  end.

(** The answer of the pre-parse hook: the text to parse, or [None] when
    dispatch is cancelled. *)
Definition preParse (response : JS.Value) (input : string) : option string :=
  match response with
  | JS.Undefined => Some input
  | JS.Str s => Some s
  | other => if negb (JS.truthy other) then None else Some input
  end.

(** The split of the text into [commandInputMain] and [args]. *)
Definition splitInput (input : string) : string * string :=
  let index := JS.indexOf input space in
  if negb (index =? -1)%Z then
    (JS.substring2 input 0 index, JS.substring1 input (index + 1)%Z)
  else (input, "").

Definition setupCommandParser (cmdr : Commander) (bot : Bot) (session : Session)
    : list Event * Outcome :=
  if negb (JS.startsWith (content session) (prefix cmdr)) then ([], CalledNext)
  else
    let input := JS.substring1 (content session) (JS.length (prefix cmdr)) in
    let response := before_parse (ctx cmdr) input bot session in
    match preParse response input with
    | None => ([], Returned)
    | Some input' =>
        let (commandInputMain, args0) := splitInput input' in
        matchLoop cmdr commandInputMain args0
          (meetCommandsOf (_commands cmdr) session) [] bot session
    end.

(** *** Notions the statements below are written in *)

(** How often a trace calls the handler, and how often it sends. *)
Definition handlerCalls (tr : list Event) : nat :=
  length (List.filter (fun ev => match ev with Invoked _ _ => true | _ => false end) tr).

Definition isEmitted (ev : Event) : bool :=
  match ev with Emitted _ _ => true | _ => false end.

Definition sends (tr : list Event) : nat :=
  length (List.filter (fun ev => match ev with Sent _ => true | _ => false end) tr).

(** The parameter names of a command: the required ones in the order of
    their declaration, then the optional ones, brackets stripped. *)
Definition paramNames (c : CommandInstance) : list string :=
  map JS.slice_1_m1 (requiredMatches c) ++ map JS.slice_1_m1 (optionalMatches c).

(** One pair of a name and a positional is written into the object. *)
Definition put (acc : gmap string JS.Value) (kv : string * string) : gmap string JS.Value :=
  JS.assign acc (fst kv) (JS.Str (snd kv)).

(** Names paired with positionals from the left, for as many as there are
    of both, each pair written in turn; a name that occurs again takes the
    later positional. *)
Definition bound (names pos : list string) : gmap string JS.Value :=
  fold_left put (zip names pos) ∅.

(** The commands registered under a scope: [get], with an absent key read
    as no commands. *)
Definition scopeCommands (cmdr : Commander) (k : Context) : list CommandInstance :=
  default [] (map_get (_commands cmdr) k).

(** One call of [Commander.command]. *)
Record Registration := {
  reg_caller : Context;
  reg_name : string;
  reg_description : string;
  reg_options : Schema
}.

Definition register (cmdr : Commander) (r : Registration) : Commander :=
  fst (command cmdr (reg_caller r) (reg_name r) (reg_description r) (reg_options r)).

(** A sequence of registrations, first to last. *)
Definition registerAll (cmdr : Commander) (rs : list Registration) : Commander :=
  fold_left register rs cmdr.

(** The registrations of a sequence made from the scope [k]. *)
Definition registrationsOf (k : Context) (rs : list Registration) : list Registration :=
  List.filter (fun r => same_context (reg_caller r) k) rs.

(** The instance a registration constructs. *)
Definition built (r : Registration) : CommandInstance :=
  new_CommandInstance (reg_name r) (reg_description r) (reg_options r).

(** A command matches the head: by its name, or by an attached alias. *)
Definition matchesHead (head : string) (obj : CommandInstance) : bool :=
  String.eqb head (name obj)
  || match aliases obj with Some al => JS.includes al head | None => false end.

(** The object that [execute] hands to the handler. *)
Definition argvOf (c : CommandInstance) (possible : string) : Argv :=
  let tf := typeFlag (options c) (parseArgsStringToArgv possible) in
  let pos := remove (positionals tf) (name c) in
  {| parsed := {| flags := flags tf; positionals := pos |};
     params := bindParams c pos |}.

(** An error comes up in the handler body, or while its result is sent. *)
Inductive raises (c : CommandInstance) (argv : Argv) (bot : Bot) (session : Session)
    : JS.Error -> Prop :=
| raised_in_body f e :
    commandFunction c = Some f ->
    f argv bot session = Throws e ->
    raises c argv bot session e
| raised_by_send f result e :
    commandFunction c = Some f ->
    f argv bot session = Returns (Some result) ->
    JS.truthy (JS.Str result) = true ->
    sendMessage bot (replyOf session result) = Some e ->
    raises c argv bot session e.

(** The matching loop passes over a command: the head is not its name and
    not among the aliases attached to it. *)
Definition passedOver (head : string) (obj : CommandInstance) : Prop :=
  String.eqb head (name obj) = false /\
  exists al, aliases obj = Some al /\ JS.includes al head = false.

(** Dispatch of the session reaches the command [obj] with the argument
    text [args0]: the prefix check and the pre-parse hook let the message
    through, and [obj] is the first visible command that matches the head. *)
Definition dispatchesTo (cmdr : Commander) (bot : Bot) (session : Session)
    (obj : CommandInstance) (args0 : string) : Prop :=
  JS.startsWith (content session) (prefix cmdr) = true /\
  exists input head before after,
    preParse
      (before_parse (ctx cmdr)
         (JS.substring1 (content session) (JS.length (prefix cmdr))) bot session)
      (JS.substring1 (content session) (JS.length (prefix cmdr))) = Some input /\
    splitInput input = (head, args0) /\
    meetCommandsOf (_commands cmdr) session = before ++ obj :: after /\
    Forall (passedOver head) before /\
    matchesHead head obj = true.

End Dispatch.

Arguments TypeFlag : clear implicits.
Arguments Argv : clear implicits.
Arguments callbackFunction : clear implicits.
Arguments CommandInstance : clear implicits.
Arguments Event : clear implicits.
Arguments Registry : clear implicits.
Arguments Bus : clear implicits.
Arguments Commander : clear implicits.

Arguments Registration : clear implicits.

(** ** Fixtures: a concrete bot, session and libraries to run the model on *)

(** A flag parser for an empty schema: every token is positional. *)
Definition noFlags : unit -> list string -> TypeFlag unit :=
  fun _ toks => {| flags := tt; positionals := toks |}.

(** A fuzzy search that finds nothing. *)
Definition findNothing : string -> list (CommandInstance unit unit) ->
    (CommandInstance unit unit -> string) -> list (CommandInstance unit unit) :=
  fun _ _ _ => [].

(** A serializer that keeps nothing of the tree. *)
Definition opaqueJson : JS.Json -> string := fun _ => "[card]".

Definition quietBus : Bus unit unit :=
  {| before_parse := fun _ _ _ => JS.Undefined;
     before_execute := fun _ _ _ => JS.Undefined |}.

(** A bus whose pre-parse hook answers [v] to every message. *)
Definition answeringBus (v : JS.Value) : Bus unit unit :=
  {| before_parse := fun _ _ _ => v;
     before_execute := fun _ _ _ => JS.Undefined |}.

Definition reliableBot : Bot := {| sendMessage := fun _ => None |}.

Definition brokenBot : Bot :=
  {| sendMessage := fun _ => Some (JS.Thrown "network down") |}.

Definition everyone : Context := {| cid := 0; filter := fun _ => true |}.

Definition incoming (text : string) : Session :=
  {| content := text; channelId := "channel-1"; msg_id := "msg-1"; avatar := "avatar.png" |}.

(** The handler of the greeting scenario: ["Hello, " + args.name]. *)
Definition greetHandler : callbackFunction unit :=
  fun argv _ _ =>
    match params argv !! "name" with
    | Some (JS.Str s) => Returns (Some ("Hello, " +:+ s))
    | _ => Returns None
    end.

Definition greet : CommandInstance unit unit :=
  action (new_CommandInstance "greet <name>" "greets somebody" tt) greetHandler.

(** A handler that echoes its parameter [text]. *)
Definition echoHandler : callbackFunction unit :=
  fun argv _ _ =>
    match params argv !! "text" with
    | Some (JS.Str s) => Returns (Some s)
    | _ => Returns None
    end.

Definition echo : CommandInstance unit unit :=
  action (new_CommandInstance "echo <text>" "repeats its argument" tt) echoHandler.

(** A handler that throws. *)
Definition failingHandler : callbackFunction unit :=
  fun _ _ _ => Throws (JS.Thrown "boom").

Definition failing : CommandInstance unit unit :=
  action (new_CommandInstance "fail [why]" "always throws" tt) failingHandler.

(** The signature of section 8, with a handler that answers nothing. *)
Definition abc : CommandInstance unit unit :=
  action (new_CommandInstance "cmd <a> <b> [c]" "three parameters" tt)
    (fun _ _ _ => Returns None).

Definition commanderOf (commands : list (CommandInstance unit unit)) (bus : Bus unit unit)
    : Commander unit unit :=
  {| _commands := [(everyone, commands)]; prefix := "!"; ctx := bus |}.

Definition emptyCommander : Commander unit unit :=
  {| _commands := []; prefix := "!"; ctx := quietBus |}.

(** The same declaration registered twice from one scope. *)
Definition greetTwice : list (Registration unit) :=
  [ {| reg_caller := everyone; reg_name := "greet <name>";
       reg_description := "greets somebody"; reg_options := tt |};
    {| reg_caller := everyone; reg_name := "greet <name>";
       reg_description := "greets again"; reg_options := tt |} ].

(** An instance to which other code has attached an array of aliases. *)
Definition aliased (c : CommandInstance unit unit) (al : list string)
    : CommandInstance unit unit :=
  {| name := name c;
     description := description c;
     options := options c;
     commandFunction := commandFunction c;
     requiredMatches := requiredMatches c;
     optionalMatches := optionalMatches c;
     aliases := Some al |}.

(** ** Notions for the further properties *)

(** A unit that the tokenizer treats as ordinary text. *)
Definition plain (c : ascii) : Prop :=
  c <> space /\ c <> dquote /\ c <> backslash.

(** A token that needs no quoting: not empty, ordinary units only. *)
Definition bare (t : string) : Prop :=
  t <> "" /\ Forall plain (JS.chars t).

(** The text between a pair of double quotes. *)
Definition inQuotesText (t : string) : string :=
  String dquote (t +:+ String dquote "").

(** Every unit of the text behind a backslash. *)
Fixpoint escapeAll (l : list ascii) : list ascii :=
  match l with
  | [] => []
  | c :: r => backslash :: c :: escapeAll r
  end.

(** The scan of the text ends outside quotes and not behind a backslash. *)
Definition balanced (text : string) : bool :=
  let st := scan_loop scan_start (JS.chars text) in
  negb (inQuotes st) && negb (escape st).

(** The one token a text makes, none when the text is empty. *)
Definition oneToken (t : string) : list string :=
  if String.eqb t "" then [] else [t].

(** A matched placeholder: the bracket [lb], a body of one or more units
    none of which is [rb], and the bracket [rb]; [slice(1, -1)] gives the
    body. *)
Definition placeholder (lb rb : ascii) (m : string) : Prop :=
  exists body,
    body <> [] /\ ~ In rb body
    /\ m = JS.str (lb :: body ++ [rb])
    /\ JS.slice_1_m1 m = JS.str body.

(** One line of the suggestion card for a command: its name, a space, the
    attached aliases in parentheses when there are any, and next to it the
    description. *)
Definition lineOf {Schema FlagValues : Type} (c : CommandInstance Schema FlagValues)
    : string * string :=
  (name c +:+ " " +:+
     match aliases c with
     | Some al =>
         if negb (Nat.eqb (length al) 0) then "(" +:+ JS.toString al +:+ ")" else ""
     | None => ""
     end,
   description c).

(** The scopes of a sequence of registrations, each once, in the order in
    which they first register a command. *)
Definition scopesOf {Schema : Type} (rs : list (Registration Schema)) : list Context :=
  fold_left
    (fun acc r =>
       if existsb (fun k => same_context k (reg_caller r)) acc then acc
       else acc ++ [reg_caller r])
    rs [].

(** No two scopes of the list are the same object. *)
Fixpoint distinctScopes (ks : list Context) : Prop :=
  match ks with
  | [] => True
  | k :: ks' => Forall (fun k0 => same_context k0 k = false) ks' /\ distinctScopes ks'
  end.

(** What dispatch does once the text to parse is settled: the split into
    head and arguments and the matching loop over the visible commands. *)
Definition dispatchOf {Schema FlagValues : Type}
    (typeFlag : Schema -> list string -> TypeFlag FlagValues)
    (search : string -> list (CommandInstance Schema FlagValues) ->
              (CommandInstance Schema FlagValues -> string) ->
              list (CommandInstance Schema FlagValues))
    (stringify : JS.Json -> string)
    (cmdr : Commander Schema FlagValues) (text : string) (bot : Bot) (session : Session)
    : list (Event FlagValues) * Outcome :=
  let (commandInputMain, args0) := splitInput text in
  matchLoop typeFlag search stringify cmdr commandInputMain args0
    (meetCommandsOf (_commands cmdr) session) [] bot session.

(** No visible command matches the head of the message: the prefix check
    and the pre-parse hook let the message through, and the loop passes
    over every visible command. *)
Definition nothingMatches {Schema FlagValues : Type}
    (cmdr : Commander Schema FlagValues) (bot : Bot) (session : Session) (head : string)
    : Prop :=
  JS.startsWith (content session) (prefix cmdr) = true /\
  exists input args0,
    preParse
      (before_parse (ctx cmdr)
         (JS.substring1 (content session) (JS.length (prefix cmdr))) bot session)
      (JS.substring1 (content session) (JS.length (prefix cmdr))) = Some input /\
    splitInput input = (head, args0) /\
    Forall (passedOver head) (meetCommandsOf (_commands cmdr) session).

(** ** More fixtures *)

(** A command whose first parameter is named [__proto__]. *)
Definition setProto : CommandInstance unit unit :=
  action (new_CommandInstance "set <__proto__> <v>" "sets a value" tt)
    (fun _ _ _ => Returns None).

(** A command registered and left without [action]. *)
Definition unarmed : CommandInstance unit unit :=
  new_CommandInstance "greet <name>" "greets somebody" tt.

(** A bus whose before-execute hook answers [text] for every command. *)
Definition refusingBus (text : string) : Bus unit unit :=
  {| before_parse := fun _ _ _ => JS.Undefined;
     before_execute := fun _ _ _ => JS.Str text |}.

(** A fuzzy search that finds every candidate. *)
Definition findAll : string -> list (CommandInstance unit unit) ->
    (CommandInstance unit unit -> string) -> list (CommandInstance unit unit) :=
  fun _ candidates _ => candidates.

(** A second scope, and registrations that alternate between two scopes. *)
Definition moderators : Context := {| cid := 1; filter := fun _ => true |}.

Definition interleaved : list (Registration unit) :=
  [ {| reg_caller := everyone; reg_name := "hello <who>";
       reg_description := "first of the first scope"; reg_options := tt |};
    {| reg_caller := moderators; reg_name := "ban <who>";
       reg_description := "first of the second scope"; reg_options := tt |};
    {| reg_caller := everyone; reg_name := "bye <who>";
       reg_description := "second of the first scope"; reg_options := tt |} ].

(** * Properties *)

(** ** The tokenizer *)

Lemma scan_loop_args_prefix rest : forall pre q e cur,
  scan_finish (scan_loop (mkScan pre q e cur) rest) = pre ++ scanned q e cur rest.
Proof.
  unfold scanned. induction rest as [|c rest IH]; intros pre q e cur.
  - unfold scan_finish; simpl.
    destruct (Nat.ltb 0 (length cur)); simpl; [reflexivity | now rewrite app_nil_r].
  - simpl. unfold scan_step; simpl.
    destruct e; [apply IH|].
    destruct (Ascii.eqb c backslash); [apply IH|].
    destruct (Ascii.eqb c dquote); [apply IH|].
    destruct (Ascii.eqb c space && negb q); [|apply IH].
    destruct (Nat.ltb 0 (length cur)); [|apply IH].
    rewrite (IH (pre ++ [JS.str cur])), (IH ([] ++ [JS.str cur])).
    now rewrite <- app_assoc.
Qed.

Lemma nonempty_ltb {A} (l : list A) : l <> [] -> Nat.ltb 0 (length l) = true.
Proof. destruct l; [congruence | reflexivity]. Qed.

Lemma Tokens_scanned q cur rest out :
  Tokens q cur rest out -> scanned q false cur rest = out.
Proof.
  induction 1 as [q cur c rest out _ IH | q cur out _ IH | q cur rest out _ IH
                 | cur rest out Hne _ IH | rest out _ IH
                 | q cur c rest out Hb Hq Hs _ IH | q cur Hne | q ];
    try exact IH.
  - unfold scanned in *. simpl. unfold scan_step. simpl.
    rewrite (nonempty_ltb cur Hne), scan_loop_args_prefix.
    unfold scanned. now rewrite IH.
  - unfold scanned in *. simpl. unfold scan_step. simpl.
    apply Ascii.eqb_neq in Hb, Hq. rewrite Hb, Hq.
    replace (Ascii.eqb c space && negb q) with false; [exact IH|].
    destruct Hs as [Hs | ->];
      [apply Ascii.eqb_neq in Hs; now rewrite Hs | now rewrite andb_false_r].
  - unfold scanned, scan_finish. simpl. now rewrite (nonempty_ltb cur Hne).
  - reflexivity.
Qed.

(** The relation has a derivation for what the loop computes, from a state
    that is not escaping and from one that is. *)
Lemma scanned_Tokens rest : forall q cur,
  Tokens q cur rest (scanned q false cur rest) /\
  Tokens q cur (backslash :: rest) (scanned q true cur rest).
Proof.
  induction rest as [|c rest IH]; intros q cur.
  - assert (H0 : Tokens q cur [] (scanned q false cur [])).
    { destruct cur as [|a cur]; [apply tok_end | apply tok_flush; congruence]. }
    split; [exact H0 | apply tok_trailing_escape; exact H0].
  - split.
    + destruct (Ascii.eqb_spec c backslash) as [-> | Hb].
      { apply (IH q cur). }
      destruct (Ascii.eqb_spec c dquote) as [-> | Hq].
      { apply tok_quote. apply (IH (negb q) cur). }
      destruct (Ascii.eqb_spec c space) as [-> | Hs].
      * destruct q.
        -- apply tok_other; auto. apply (IH true (cur ++ [space])).
        -- destruct cur as [|a cur].
           ++ apply tok_space_drops. apply (IH false []).
           ++ unfold scanned. simpl. unfold scan_step. simpl.
              rewrite scan_loop_args_prefix. simpl.
              apply tok_space_ends; [congruence|]. apply (IH false []).
      * apply tok_other; auto.
        unfold scanned. simpl. unfold scan_step. simpl.
        apply Ascii.eqb_neq in Hb, Hq, Hs. rewrite Hb, Hq, Hs. simpl.
        apply (IH q (cur ++ [c])).
    + apply tok_escape. apply (IH q (cur ++ [c])).
Qed.

(** C6. For every input string the code's tokenizer computes exactly the
    tokens that the scan of section 4.1 yields: a backslash escapes the next
    character verbatim, a double quote toggles the inside-quotes mode and is
    not emitted, an unescaped unquoted space ends the current token with
    empty tokens dropped, every other character accumulates, and a trailing
    non-empty token is flushed. The function is total, so no input raises
    an error; the quoted example gives three tokens, and an unterminated
    quote reads the rest of the text as one token. *)
Theorem parseArgsStringToArgv_tokenize :
  (forall text toks, tokenize text toks <-> parseArgsStringToArgv text = toks)
  /\ parseArgsStringToArgv
       ("foo " +:+ String dquote ("bar baz" +:+ String dquote " qux"))
     = ["foo"; "bar baz"; "qux"]
  /\ parseArgsStringToArgv ("foo " +:+ String dquote "bar baz")
     = ["foo"; "bar baz"].
Proof.
  split; [|split; reflexivity].
  intros text toks. unfold tokenize, parseArgsStringToArgv. split.
  - intros H. apply Tokens_scanned in H. exact H.
  - intros <-. apply (scanned_Tokens (JS.chars text) false []).
Qed.

(** ** Strings, the split of the input, and [remove] *)

Lemma indexOf_from_spec c l : forall i,
  (JS.indexOf_from c l i = -1 /\ ~ In c l)%Z
  \/ exists pre post,
       l = pre ++ c :: post /\ ~ In c pre
       /\ JS.indexOf_from c l i = (i + Z.of_nat (length pre))%Z.
Proof.
  induction l as [|x l IH]; intros i; simpl.
  - left. tauto.
  - destruct (Ascii.eqb_spec x c) as [-> | Hne].
    + right. exists [], l. simpl. repeat split; [tauto | lia].
    + destruct (IH (i + 1)%Z) as [[H1 H2] | (pre & post & -> & Hpre & Hidx)].
      * left. split; [exact H1 | intros [?|?]; tauto].
      * right. exists (x :: pre), post. simpl. repeat split.
        -- intros [?|?]; tauto.
        -- rewrite Hidx. lia.
Qed.

Lemma chars_length s : String.length s = length (JS.chars s).
Proof. induction s; simpl; congruence. Qed.

Lemma str_app l1 l2 : JS.str (l1 ++ l2) = JS.str l1 +:+ JS.str l2.
Proof.
  unfold JS.str. induction l1 as [|a l1 IH]; simpl; [reflexivity | now rewrite IH].
Qed.

Lemma str_chars s : JS.str (JS.chars s) = s.
Proof. apply string_of_list_ascii_of_string. Qed.

Lemma chars_str l : JS.chars (JS.str l) = l.
Proof. apply list_ascii_of_string_of_list_ascii. Qed.

(** What [substring(0, k)] and [substring(k + 1)] cut out around the unit
    at position [k]. *)
Lemma substring_around s pre x post :
  JS.chars s = pre ++ x :: post ->
  JS.substring2 s 0 (Z.of_nat (length pre)) = JS.str pre
  /\ JS.substring1 s (Z.of_nat (length pre) + 1) = JS.str post.
Proof.
  intros Hs. unfold JS.substring1, JS.substring2, JS.clamp, JS.length.
  rewrite chars_length, Hs, length_app. simpl length.
  split.
  - replace (Z.to_nat _) with (length pre) by lia.
    replace (Z.to_nat _) with 0 by lia.
    rewrite drop_0. now rewrite take_app_length.
  - replace (Z.to_nat _) with (length post) by lia.
    replace (Z.to_nat _) with (length (pre ++ [x])) by (rewrite length_app; simpl; lia).
    replace (pre ++ x :: post) with ((pre ++ [x]) ++ post) by now rewrite <- app_assoc.
    rewrite drop_app_length. now rewrite firstn_all.
Qed.

Lemma splitInput_spec input head args0 :
  splitInput input = (head, args0) ->
  ~ In space (JS.chars head)
  /\ ((input = head /\ args0 = "") \/ input = head +:+ String space args0).
Proof.
  unfold splitInput, JS.indexOf.
  destruct (indexOf_from_spec space (JS.chars input) 0)
    as [[Hidx Hno] | (pre & post & Hs & Hpre & Hidx)]; rewrite Hidx.
  - simpl. intros [= <- <-]. split; [exact Hno | left; split; reflexivity].
  - replace (negb (0 + Z.of_nat (length pre) =? -1)%Z) with true
      by (symmetry; apply negb_true_iff, Z.eqb_neq; lia).
    destruct (substring_around input pre space post Hs) as [H1 H2].
    rewrite Z.add_0_l, H1, H2. intros [= <- <-]. split.
    + now rewrite chars_str.
    + right. rewrite <- (str_chars input), Hs, str_app. reflexivity.
Qed.

Lemma remove_first xs item :
  In item xs ->
  exists before after,
    xs = before ++ item :: after /\ ~ In item before /\ remove xs item = before ++ after.
Proof.
  induction xs as [|x xs IH]; simpl; [tauto|]. intros Hin.
  destruct (String.eqb_spec x item) as [-> | Hne].
  - exists [], xs. simpl. tauto.
  - destruct Hin as [? | Hin]; [congruence|].
    destruct (IH Hin) as (before & after & -> & Hb & Hr).
    exists (x :: before), after. simpl. rewrite Hr. repeat split.
    intros [?|?]; tauto.
Qed.

(** ** [CommandInstance.execute] *)

Section ExecuteProperties.

Context {Schema FlagValues : Type}.
Variable typeFlag : Schema -> list string -> TypeFlag FlagValues.

Implicit Types (c : CommandInstance Schema FlagValues) (pos : list string).

Lemma execute_arity_short c possible bot session :
  length (positionalsOf typeFlag c possible) < length (requiredMatches c) ->
  execute typeFlag c possible bot session
  = ([Sent (missingRequired session)], JS.Resolved JS.Undefined).
Proof.
  unfold positionalsOf, execute. intros H.
  apply Nat.ltb_lt in H. now rewrite H.
Qed.

(** C4. When the positional tokens left after flag extraction and head
    removal are fewer than the required parameters, [execute] does one thing
    only: it sends the missing-required-parameter message, quoting the
    trigger. The handler is not called, nothing is bound for it, and the
    promise of [execute] resolves (no exception). *)
Theorem execute_missing_required c possible bot session :
  length (positionalsOf typeFlag c possible) < length (requiredMatches c) ->
  execute typeFlag c possible bot session
  = ([Sent {| channel := channelId session;
              body := "缺少必要参数";
              opts := Some {| type := None; quote := Some (msg_id session) |} |}],
     JS.Resolved JS.Undefined)
  /\ sends (fst (execute typeFlag c possible bot session)) = 1
  /\ handlerCalls (fst (execute typeFlag c possible bot session)) = 0.
Proof.
  intros H. rewrite (execute_arity_short c possible bot session H).
  repeat split.
Qed.

(** *** Binding *)

Lemma bindRequired_zip required : forall i pos acc,
  i + length required <= length pos ->
  bindRequired i required pos acc
  = fold_left put (zip (map JS.slice_1_m1 required) (drop i pos)) acc.
Proof.
  induction required as [|m rest IH]; intros i pos acc Hlen; simpl in *.
  - reflexivity.
  - destruct (lookup_lt_is_Some_2 pos i) as [s Hs]; [lia|].
    rewrite (drop_S _ _ _ Hs). simpl.
    rewrite IH by lia. unfold JS.at_index. now rewrite Hs.
Qed.

Lemma bindOptional_zip optional : forall i nreq pos acc,
  bindOptional i optional nreq pos acc
  = fold_left put (zip (map JS.slice_1_m1 optional) (drop (i + nreq) pos)) acc.
Proof.
  induction optional as [|m rest IH]; intros i nreq pos acc; simpl.
  - reflexivity.
  - destruct (Nat.ltb_spec (i + nreq) (length pos)) as [Hlt | Hge].
    + destruct (lookup_lt_is_Some_2 pos (i + nreq)) as [s Hs]; [lia|].
      rewrite (drop_S _ _ _ Hs). simpl.
      rewrite IH. unfold JS.at_index. now rewrite Hs.
    + now rewrite drop_ge by lia.
Qed.

Lemma zip_app_drop (a b pos : list string) :
  length a <= length pos ->
  zip (a ++ b) pos = zip a pos ++ zip b (drop (length a) pos).
Proof.
  revert pos. induction a as [|x a IH]; intros pos H; simpl in *.
  - reflexivity.
  - destruct pos as [|p pos]; simpl in *; [lia|].
    f_equal. apply IH. lia.
Qed.

Lemma bindParams_bound c pos :
  length (requiredMatches c) <= length pos ->
  bindParams c pos = bound (paramNames c) pos.
Proof.
  intros H. unfold bindParams, bound, paramNames.
  rewrite bindOptional_zip, bindRequired_zip by (simpl; lia).
  rewrite zip_app_drop by (now rewrite length_map).
  rewrite fold_left_app, length_map. simpl. now rewrite drop_0.
Qed.

(** With the arity satisfied and a handler set, the first event of
    [execute] is the call of the handler on the bound mapping. *)
Lemma execute_invokes_bound c possible bot session f :
  commandFunction c = Some f ->
  length (requiredMatches c) <= length (positionalsOf typeFlag c possible) ->
  exists tr,
    fst (execute typeFlag c possible bot session)
    = Invoked (name c)
        {| parsed := parsed (argvOf typeFlag c possible);
           params := bound (paramNames c) (positionalsOf typeFlag c possible) |}
      :: tr.
Proof.
  intros Hf Hlen. pose proof (bindParams_bound c _ Hlen) as Hb.
  unfold execute, positionalsOf, argvOf in *.
  apply Nat.ltb_ge in Hlen. rewrite Hlen, Hf. cbn zeta. rewrite Hb.
  destruct (f _ bot session) as [[result|]|e]; simpl.
  - destruct (negb (String.eqb result "")); [destruct (sendMessage bot _)|];
      simpl; eauto.
  - eauto.
  - eauto.
Qed.

(** X27. When the positionals are at least as many as the required
    parameters, the handler is called first, with the object that one pass
    of property writes builds from the empty object: the required names in
    declaration order and then the optional names, each paired with the
    positional at its place, for as many positionals as there are (a write
    to the key [__proto__] stores nothing). For the declaration
    [cmd <a> <b> [c]] the positionals 1, 2, 3 give a = 1, b = 2, c = 3, and
    the positionals 1, 2 give a = 1, b = 2 with no key c. *)
Theorem execute_binds_required_then_optional :
  (forall c possible bot session f,
     commandFunction c = Some f ->
     length (requiredMatches c) <= length (positionalsOf typeFlag c possible) ->
     bindParams c (positionalsOf typeFlag c possible)
     = bound (paramNames c) (positionalsOf typeFlag c possible)
     /\ exists tr,
         fst (execute typeFlag c possible bot session)
         = Invoked (name c)
             {| parsed := parsed (argvOf typeFlag c possible);
                params := bound (paramNames c) (positionalsOf typeFlag c possible) |}
           :: tr)
  /\ (forall o : Schema,
        let c : CommandInstance Schema FlagValues :=
          new_CommandInstance "cmd <a> <b> [c]" "" o in
        requiredMatches c = ["<a>"; "<b>"]
        /\ optionalMatches c = ["[c]"]
        /\ paramNames c = ["a"; "b"; "c"]
        /\ bindParams c ["1"; "2"; "3"]
           = {[ "a" := JS.Str "1"; "b" := JS.Str "2"; "c" := JS.Str "3" ]}
        /\ bindParams c ["1"; "2"] = {[ "a" := JS.Str "1"; "b" := JS.Str "2" ]}
        /\ bindParams c ["1"; "2"] !! "c" = None).
Proof.
  split.
  - intros c possible bot session f Hf Hlen. split.
    + now apply bindParams_bound.
    + now apply execute_invokes_bound with (f := f).
  - intros o c. repeat split.
Qed.

(** X4. A declaration without a space, that is a command without
    parameters, is constructed with the empty name: [indexOf] answers [-1]
    and [substring(0, -1)] is empty. The whole declaration is searched for
    placeholders. *)
Theorem new_CommandInstance_without_space (decl desc : string) (o : Schema) :
  ~ In space (JS.chars decl) ->
  name (new_CommandInstance (FlagValues := FlagValues) decl desc o) = ""
  /\ requiredMatches (new_CommandInstance (FlagValues := FlagValues) decl desc o)
     = matches "<" ">" decl.
Proof.
  intros Hno. unfold new_CommandInstance, JS.indexOf. cbn [name requiredMatches].
  destruct (indexOf_from_spec space (JS.chars decl) 0)
    as [[Hidx _] | (pre & post & Hs & _ & _)].
  - rewrite Hidx. unfold JS.substring1, JS.substring2, JS.clamp, JS.length. split.
    + replace (Z.to_nat _) with 0 by lia. reflexivity.
    + replace (Z.to_nat _) with (String.length decl) by lia.
      replace (Z.to_nat _) with 0 by lia.
      rewrite drop_0, chars_length, firstn_all, str_chars. reflexivity.
  - exfalso. apply Hno. rewrite Hs. apply in_or_app. right. left. reflexivity.
Qed.

(** X5. One call of [execute] calls the handler at most once and sends at
    most one message. *)
Theorem execute_at_most_one_call_and_send c possible bot session :
  handlerCalls (fst (execute typeFlag c possible bot session)) <= 1
  /\ sends (fst (execute typeFlag c possible bot session)) <= 1.
Proof.
  unfold execute, handlerCalls, sends.
  destruct (Nat.ltb _ _); [simpl; lia|].
  destruct (commandFunction c) as [f|]; [|simpl; lia].
  destruct (f _ bot session) as [[result|]|e]; try (simpl; lia).
  destruct (JS.truthy _); [destruct (sendMessage bot _)|]; simpl; lia.
Qed.

End ExecuteProperties.

(** ** The removal of the head *)

Section HeadRemoval.

Context {Schema FlagValues : Type}.
Variable typeFlag : Schema -> list string -> TypeFlag FlagValues.

Implicit Types (c : CommandInstance Schema FlagValues).

(** C10. The dispatcher cuts the head off before it calls [execute]: the
    argument text is what follows the head and one space, and the head holds
    no space. [execute] all the same deletes, from the positionals that flag
    extraction leaves, the first token equal to the name of the command.
    A positional argument that equals the name is therefore gone before the
    arity check, which then sees one token fewer, and before binding, which
    pairs the names with the remaining tokens. *)
Theorem execute_removes_argument_equal_to_name :
  (forall input head args0,
     splitInput input = (head, args0) ->
     ~ In space (JS.chars head)
     /\ ((input = head /\ args0 = "") \/ input = head +:+ String space args0))
  /\ (forall c possible bot session,
        let pos0 := positionals (typeFlag (options c) (parseArgsStringToArgv possible)) in
        In (name c) pos0 ->
        (exists before after,
           pos0 = before ++ name c :: after /\ ~ In (name c) before
           /\ positionalsOf typeFlag c possible = before ++ after)
        /\ (length pos0 <= length (requiredMatches c) ->
            execute typeFlag c possible bot session
            = ([Sent (missingRequired session)], JS.Resolved JS.Undefined))
        /\ (length (requiredMatches c) < length pos0 ->
            forall f, commandFunction c = Some f ->
            exists tr,
              fst (execute typeFlag c possible bot session)
              = Invoked (name c)
                  {| parsed := {| flags := flags (typeFlag (options c)
                                                    (parseArgsStringToArgv possible));
                                  positionals := remove pos0 (name c) |};
                     params := bound (paramNames c) (remove pos0 (name c)) |}
                :: tr)).
Proof.
  split; [exact splitInput_spec|].
  intros c possible bot session pos0 Hin.
  destruct (remove_first pos0 (name c) Hin) as (before & after & Hpos & Hb & Hr).
  assert (Hlen : length (remove pos0 (name c)) + 1 = length pos0).
  { rewrite Hr, Hpos, !length_app. simpl. lia. }
  split; [|split].
  - exists before, after. unfold positionalsOf. fold pos0. tauto.
  - intros Hshort. apply execute_arity_short. unfold positionalsOf. fold pos0. lia.
  - intros Hlong f Hf.
    destruct (execute_invokes_bound typeFlag c possible bot session f Hf) as [tr Htr].
    { unfold positionalsOf. fold pos0. lia. }
    exists tr. exact Htr.
Qed.

End HeadRemoval.

(** ** The registry *)

Section RegistryProperties.

Context {Schema FlagValues : Type}.

Implicit Types (m : Registry Schema FlagValues) (k : Context)
  (c : CommandInstance Schema FlagValues) (cmdr : Commander Schema FlagValues).

Lemma same_context_cid a b : same_context a b = true <-> cid a = cid b.
Proof. unfold same_context. apply Nat.eqb_eq. Qed.

Ltac by_cid :=
  repeat match goal with
  | |- context [same_context ?a ?b] =>
      let H := fresh "H" in
      destruct (same_context a b) eqn:H;
      [apply same_context_cid in H | apply Nat.eqb_neq in H]
  end;
  simpl; try reflexivity; try congruence.

Lemma map_has_get m k : map_has m k = false <-> map_get m k = None.
Proof.
  induction m as [|[k0 v] m IH]; simpl; [tauto|].
  destruct (same_context k0 k); simpl; [split; discriminate | exact IH].
Qed.

Lemma map_get_push m k c k' :
  map_get (map_push m k c) k'
  = if same_context k k' then (fun v => v ++ [c]) <$> map_get m k' else map_get m k'.
Proof.
  induction m as [|[k0 v] m IH]; simpl.
  - now destruct (same_context k k').
  - destruct (same_context k0 k) eqn:H0; simpl.
    + apply same_context_cid in H0. by_cid.
    + apply Nat.eqb_neq in H0. rewrite IH. by_cid.
Qed.

Lemma map_get_set m k v k' :
  map_get m k = None ->
  map_get (map_set m k v) k' = if same_context k k' then Some v else map_get m k'.
Proof.
  induction m as [|[k0 v0] m IH]; simpl; intros Hnone.
  - reflexivity.
  - destruct (same_context k0 k) eqn:H0; [discriminate|]. simpl.
    apply Nat.eqb_neq in H0. rewrite (IH Hnone). by_cid.
Qed.

Lemma map_get_same m k k' : cid k = cid k' -> map_get m k = map_get m k'.
Proof.
  intros Hk. induction m as [|[k0 v] m IH]; simpl; [reflexivity|].
  rewrite IH. unfold same_context. now rewrite Hk.
Qed.

(** One registration appends the new instance to the list of its scope and
    leaves every other scope alone. *)
Lemma scopeCommands_register cmdr (r : Registration Schema) k :
  scopeCommands (register cmdr r) k
  = scopeCommands cmdr k
    ++ (if same_context (reg_caller r) k then [built (FlagValues := FlagValues) r] else []).
Proof.
  unfold scopeCommands, register, command, built. cbn [fst _commands].
  destruct (map_has (_commands cmdr) (reg_caller r)) eqn:Hhas.
  - rewrite map_get_push.
    destruct (same_context (reg_caller r) k) eqn:Hk; [|now rewrite app_nil_r].
    apply same_context_cid in Hk.
    destruct (map_get (_commands cmdr) k) as [v|] eqn:Hget; [reflexivity|].
    rewrite <- (map_get_same _ _ _ Hk) in Hget.
    apply map_has_get in Hget. congruence.
  - apply map_has_get in Hhas. rewrite (map_get_set _ _ _ _ Hhas).
    destruct (same_context (reg_caller r) k) eqn:Hk; [|now rewrite app_nil_r].
    apply same_context_cid in Hk.
    now rewrite <- (map_get_same _ _ _ Hk), Hhas.
Qed.

Lemma scopeCommands_registerAll (rs : list (Registration Schema)) : forall cmdr k,
  scopeCommands (registerAll cmdr rs) k
  = scopeCommands cmdr k ++ map built (registrationsOf k rs).
Proof.
  unfold registerAll, registrationsOf.
  induction rs as [|r rs IH]; intros cmdr k; simpl.
  - now rewrite app_nil_r.
  - rewrite IH, scopeCommands_register.
    destruct (same_context (reg_caller r) k); simpl.
    + now rewrite <- app_assoc.
    + now rewrite app_nil_r.
Qed.

(** C3, as amended. [Commander.command] checks no name: after any sequence
    of registrations the list of a scope is what it held before, followed by
    one instance per registration made from that scope, in the order of the
    calls. It holds no two commands of the same name exactly when the names
    it held before and the names constructed from those declarations are
    pairwise distinct. *)
Theorem registry_lists_every_registration :
  forall cmdr (rs : list (Registration Schema)) k,
    scopeCommands (registerAll cmdr rs) k
    = scopeCommands cmdr k ++ map built (registrationsOf k rs)
    /\ (NoDup (map name (scopeCommands (registerAll cmdr rs) k))
        <-> NoDup (map name (scopeCommands cmdr k)
                   ++ map (fun r => JS.substring2 (reg_name r) 0
                                      (JS.indexOf (reg_name r) space))
                        (registrationsOf k rs))).
Proof.
  intros cmdr rs k. split; [apply scopeCommands_registerAll|].
  rewrite scopeCommands_registerAll, map_app, map_map. reflexivity.
Qed.

End RegistryProperties.

(** ** [Commander.setupCommandParser] *)

Section DispatchProperties.

Context {Schema FlagValues : Type}.
Variable typeFlag : Schema -> list string -> TypeFlag FlagValues.
Variable search : string -> list (CommandInstance Schema FlagValues) ->
  (CommandInstance Schema FlagValues -> string) -> list (CommandInstance Schema FlagValues).
Variable stringify : JS.Json -> string.

Implicit Types (cmdr : Commander Schema FlagValues) (obj c : CommandInstance Schema FlagValues).

(** The loop hands the message to the first command that matches the head,
    provided the commands before it carry an array of aliases. *)
Lemma matchLoop_reaches cmdr head args0 bot session obj after before :
  forall commandArray,
    Forall (passedOver head) before ->
    matchesHead head obj = true ->
    matchLoop typeFlag search stringify cmdr head args0
      (before ++ obj :: after) commandArray bot session
    = runMatched typeFlag cmdr obj args0 bot session.
Proof.
  induction before as [|p before IH]; intros commandArray Hpass Hobj; simpl.
  - unfold matchesHead in Hobj.
    destruct (String.eqb head (name obj)); [reflexivity|]. simpl in Hobj.
    destruct (aliases obj) as [al|]; [|discriminate]. now rewrite Hobj.
  - inversion Hpass as [|? ? [Hname (al & Hal & Hinc)] Hrest]; subst.
    rewrite Hname, Hal, Hinc. now apply IH.
Qed.

Lemma dispatchesTo_runMatched cmdr bot session obj args0 :
  dispatchesTo cmdr bot session obj args0 ->
  setupCommandParser typeFlag search stringify cmdr bot session
  = runMatched typeFlag cmdr obj args0 bot session.
Proof.
  intros [Hprefix (input & head & before & after & Hpre & Hsplit & Hmeet & Hpass & Hobj)].
  unfold setupCommandParser. rewrite Hprefix. cbn [negb].
  cbv zeta. rewrite Hpre, Hsplit, Hmeet.
  now apply matchLoop_reaches.
Qed.

Lemma execute_raises c possible bot session e :
  length (requiredMatches c) <= length (positionalsOf typeFlag c possible) ->
  raises c (argvOf typeFlag c possible) bot session e ->
  exists tr, execute typeFlag c possible bot session = (tr, JS.Rejected e).
Proof.
  intros Hlen Hr. unfold execute, positionalsOf, argvOf in *.
  apply Nat.ltb_ge in Hlen. rewrite Hlen. cbv zeta.
  destruct Hr as [f e Hf Hthrow | f result e Hf Hret Htruthy Hsend]; rewrite Hf.
  - rewrite Hthrow. eauto.
  - rewrite Hret, Htruthy, Hsend. eauto.
Qed.

(** C8. An error thrown in the body of the handler, or raised while its
    result is sent, is not caught in [execute]: the promise of [execute] is
    rejected with that error. The dispatch that called [execute] catches it:
    it logs the error last and returns, so nothing is re-raised to whoever
    runs the middleware. *)
Theorem handler_error_logged_at_dispatch cmdr bot session obj args0 e :
  dispatchesTo cmdr bot session obj args0 ->
  JS.is_string (before_execute (ctx cmdr) obj bot session) = false ->
  length (requiredMatches obj) <= length (positionalsOf typeFlag obj args0) ->
  raises obj (argvOf typeFlag obj args0) bot session e ->
  exists tr,
    execute typeFlag obj args0 bot session = (tr, JS.Rejected e)
    /\ setupCommandParser typeFlag search stringify cmdr bot session
       = (tr ++ [Logged e], Returned).
Proof.
  intros Hd Hhook Hlen Hr.
  destruct (execute_raises obj args0 bot session e Hlen Hr) as [tr Hex].
  exists tr. split; [exact Hex|].
  rewrite (dispatchesTo_runMatched _ _ _ _ _ Hd). unfold runMatched.
  rewrite Hex.
  destruct (before_execute (ctx cmdr) obj bot session); try reflexivity; discriminate.
Qed.

(** C7, as amended. When the pre-parse hook of a prefixed message answers a
    falsy value that is neither [undefined] nor a string, dispatch is
    cancelled: no command is executed, no reply and no suggestion card are
    sent, no hook is emitted, and the middleware returns without calling
    the next one. When the hook answers a string, the empty one included,
    that string is the text to parse and dispatch goes on with it. *)
Theorem preparse_veto_cancels_dispatch cmdr bot session response :
  JS.startsWith (content session) (prefix cmdr) = true ->
  before_parse (ctx cmdr)
    (JS.substring1 (content session) (JS.length (prefix cmdr))) bot session
  = response ->
  (JS.falsy response = true -> response <> JS.Undefined ->
   JS.is_string response = false ->
   setupCommandParser typeFlag search stringify cmdr bot session = ([], Returned))
  /\ (forall s,
        response = JS.Str s ->
        setupCommandParser typeFlag search stringify cmdr bot session
        = dispatchOf typeFlag search stringify cmdr s bot session).
Proof.
  intros Hprefix Hresponse. unfold setupCommandParser, dispatchOf.
  rewrite Hprefix, Hresponse. cbn [negb]. cbv zeta. split.
  - intros Hfalsy Hdef Hstr.
    destruct response as [| |b|s|z]; simpl in *;
      try congruence; unfold JS.falsy in Hfalsy; simpl in Hfalsy.
    + apply negb_true_iff in Hfalsy. now rewrite Hfalsy.
    + rewrite Hfalsy. reflexivity.
  - intros s ->. reflexivity.
Qed.

(** *** The execute notification *)

Lemma execute_resolves_undefined c possible bot session tr v :
  execute typeFlag c possible bot session = (tr, JS.Resolved v) -> v = JS.Undefined.
Proof.
  unfold execute.
  destruct (Nat.ltb _ _); [now intros [= _ <-]|].
  destruct (commandFunction c) as [f|]; [|discriminate].
  destruct (f _ bot session) as [[result|]|e]; try discriminate;
    [|now intros [= _ <-]].
  destruct (JS.truthy _); [destruct (sendMessage bot _)|];
    try discriminate; now intros [= _ <-].
Qed.

Lemma execute_emits_nothing c possible bot session :
  forallb (fun ev => negb (isEmitted ev)) (fst (execute typeFlag c possible bot session)) = true.
Proof.
  unfold execute.
  destruct (Nat.ltb _ _); [reflexivity|].
  destruct (commandFunction c) as [f|]; [|reflexivity].
  destruct (f _ bot session) as [[result|]|e]; try reflexivity.
  destruct (JS.truthy _); [destruct (sendMessage bot _)|]; reflexivity.
Qed.

Lemma runMatched_emits_nothing cmdr obj args0 bot session :
  forallb (fun ev => negb (isEmitted ev))
    (fst (runMatched typeFlag cmdr obj args0 bot session)) = true.
Proof.
  unfold runMatched.
  pose proof (execute_emits_nothing obj args0 bot session) as Hex.
  pose proof (execute_resolves_undefined obj args0 bot session) as Hun.
  destruct (execute typeFlag obj args0 bot session) as [tr [v|e]]; simpl in Hex.
  - rewrite (Hun tr v eq_refl). simpl.
    destruct (before_execute _ _ _ _); simpl; auto.
  - assert (forallb (fun ev => negb (isEmitted ev)) (tr ++ [Logged e]) = true)
      by (rewrite forallb_app, Hex; reflexivity).
    destruct (before_execute _ _ _ _); simpl; auto.
Qed.

Lemma suggest_emits_nothing head commandArray session :
  forallb (fun ev => negb (isEmitted ev))
    (fst (suggest search stringify head commandArray session)) = true.
Proof.
  unfold suggest. destruct (Nat.eqb _ _); [reflexivity|].
  destruct (suggestionLines _); reflexivity.
Qed.

Lemma matchLoop_emits_nothing cmdr head args0 bot session meet :
  forall commandArray,
    forallb (fun ev => negb (isEmitted ev))
      (fst (matchLoop typeFlag search stringify cmdr head args0 meet commandArray
              bot session)) = true.
Proof.
  induction meet as [|obj meet IH]; intros commandArray; simpl.
  - apply suggest_emits_nothing.
  - destruct (String.eqb head (name obj)); [apply runMatched_emits_nothing|].
    destruct (aliases obj) as [al|]; [|reflexivity].
    destruct (JS.includes al head); [apply runMatched_emits_nothing | apply IH].
Qed.

(** X1. Whatever the message, the registry, the hooks and the handlers,
    dispatch never emits the 'command/execute' notification: [execute] has
    no value to resolve with, and the notification waits for a truthy one. *)
Theorem dispatch_never_emits cmdr bot session hook command0 :
  ~ In (Emitted hook command0)
      (fst (setupCommandParser typeFlag search stringify cmdr bot session)).
Proof.
  intros Hin.
  assert (H : forallb (fun ev => negb (isEmitted ev))
                (fst (setupCommandParser typeFlag search stringify cmdr bot session)) = true).
  { unfold setupCommandParser.
    destruct (negb (JS.startsWith _ _)); [reflexivity|]. cbv zeta.
    destruct (preParse _ _) as [input|]; [|reflexivity].
    destruct (splitInput input) as [head args0].
    apply matchLoop_emits_nothing. }
  rewrite forallb_forall in H. specialize (H _ Hin). discriminate.
Qed.

(** X2. A command without an array of aliases, as the constructor builds
    it, whose name is not the head stops the loop with a [TypeError]: no
    later command is looked at, and no suggestion is made. *)
Theorem matchLoop_throws_on_constructed cmdr head args0 bot session c after commandArray :
  aliases c = None ->
  String.eqb head (name c) = false ->
  matchLoop typeFlag search stringify cmdr head args0 (c :: after) commandArray bot session
  = ([], Failed (JS.TypeError "Cannot read properties of undefined (reading 'includes')")).
Proof. intros Hal Hname. simpl. now rewrite Hname, Hal. Qed.

(** X3. First match wins where aliases are attached: if the message passes
    the prefix check and the pre-parse hook, every visible command before
    [obj] has another name and an array of aliases without the head, and
    [obj] matches the head by its name or by an alias, then dispatch does
    with the message what it does for [obj], whatever commands follow. *)
Theorem dispatch_first_match_wins cmdr bot session obj args0 :
  dispatchesTo cmdr bot session obj args0 ->
  setupCommandParser typeFlag search stringify cmdr bot session
  = runMatched typeFlag cmdr obj args0 bot session.
Proof. apply dispatchesTo_runMatched. Qed.

End DispatchProperties.

(** * Further properties *)

(** ** The tokenizer on its own *)

Lemma scan_loop_app a : forall st b,
  scan_loop st (a ++ b) = scan_loop (scan_loop st a) b.
Proof. induction a as [|c a IH]; intros st b; simpl; [reflexivity | apply IH]. Qed.

Lemma chars_app s1 s2 : JS.chars (s1 +:+ s2) = JS.chars s1 ++ JS.chars s2.
Proof.
  unfold JS.chars. induction s1 as [|c s1 IH]; simpl; [reflexivity | now rewrite IH].
Qed.

Lemma str_nil_iff l : JS.str l = "" <-> l = [].
Proof. destruct l; simpl; split; congruence. Qed.

Lemma chars_nil_iff s : JS.chars s = [] <-> s = "".
Proof. destruct s; simpl; split; congruence. Qed.

Lemma scan_step_args_nonempty st c :
  Forall (fun tok => tok <> "") (args st) ->
  Forall (fun tok => tok <> "") (args (scan_step st c)).
Proof.
  intros H. unfold scan_step.
  destruct (escape st); [exact H|].
  destruct (Ascii.eqb c backslash); [exact H|].
  destruct (Ascii.eqb c dquote); [exact H|].
  destruct (Ascii.eqb c space && negb (inQuotes st)); [|exact H].
  destruct (arg st) as [|a l] eqn:Harg; simpl; [exact H|].
  apply Forall_app. split; [exact H|]. constructor; [discriminate | constructor].
Qed.

(** X6. No token that the tokenizer returns is the empty string: a run of
    spaces separates once, and an empty pair of quotes makes no token. *)
Theorem parseArgsStringToArgv_no_empty_token (value : string) :
  Forall (fun tok => tok <> "") (parseArgsStringToArgv value).
Proof.
  unfold parseArgsStringToArgv.
  assert (H : forall l st, Forall (fun tok => tok <> "") (args st) ->
                Forall (fun tok => tok <> "") (args (scan_loop st l))).
  { induction l as [|c l IH]; intros st Hst; simpl; [exact Hst|].
    apply IH, scan_step_args_nonempty, Hst. }
  specialize (H (JS.chars value) scan_start ltac:(constructor)).
  unfold scan_finish.
  destruct (arg (scan_loop scan_start (JS.chars value))) as [|a l]; simpl; [exact H|].
  apply Forall_app. split; [exact H|]. constructor; [discriminate | constructor].
Qed.

Lemma scan_plain t : forall pre q cur,
  Forall plain t ->
  scan_loop (mkScan pre q false cur) t = mkScan pre q false (cur ++ t).
Proof.
  induction t as [|c t IH]; intros pre q cur Hp; simpl.
  - now rewrite app_nil_r.
  - inversion Hp as [|? ? (Hs & Hq & Hb) Ht]; subst.
    unfold scan_step. simpl.
    apply Ascii.eqb_neq in Hs, Hq, Hb. rewrite Hs, Hq, Hb. simpl.
    rewrite IH by exact Ht. now rewrite <- app_assoc.
Qed.

Lemma scanned_bare_words toks :
  Forall bare toks ->
  scanned false false [] (JS.chars (String.concat " " toks)) = toks.
Proof.
  induction toks as [|t toks IH]; intros Hb; [reflexivity|].
  inversion Hb as [|? ? [Hne Hplain] Hrest]; subst.
  assert (Hc : JS.chars t <> []) by (now rewrite chars_nil_iff).
  destruct toks as [|t' toks].
  - simpl. unfold scanned. rewrite (scan_plain _ _ _ _ Hplain). simpl.
    unfold scan_finish. simpl. rewrite (nonempty_ltb _ Hc). simpl.
    now rewrite str_chars.
  - change (String.concat " " (t :: t' :: toks))
      with (t +:+ String space (String.concat " " (t' :: toks))).
    rewrite chars_app. unfold scanned. rewrite scan_loop_app.
    rewrite (scan_plain _ _ _ _ Hplain). simpl JS.chars.
    change (JS.chars (String space ?s)) with (space :: JS.chars s).
    cbn [scan_loop]. unfold scan_step. simpl.
    rewrite (nonempty_ltb _ Hc). rewrite scan_loop_args_prefix.
    rewrite str_chars. simpl. f_equal. apply IH. exact Hrest.
Qed.

(** X7. Tokens that need no quoting come back as they were: for non-empty
    tokens without a space, a double quote or a backslash, joining them with
    single spaces and tokenizing the line gives the tokens again. *)
Theorem parseArgsStringToArgv_joins_back (toks : list string) :
  Forall bare toks ->
  parseArgsStringToArgv (String.concat " " toks) = toks.
Proof. apply scanned_bare_words. Qed.

Lemma scan_quoted t : forall pre cur,
  Forall (fun c => c <> dquote /\ c <> backslash) t ->
  scan_loop (mkScan pre true false cur) t = mkScan pre true false (cur ++ t).
Proof.
  induction t as [|c t IH]; intros pre cur Hp; simpl.
  - now rewrite app_nil_r.
  - inversion Hp as [|? ? (Hq & Hb) Ht]; subst.
    unfold scan_step. simpl.
    apply Ascii.eqb_neq in Hq, Hb. rewrite Hq, Hb. rewrite andb_false_r.
    rewrite IH by exact Ht. now rewrite <- app_assoc.
Qed.

Lemma finish_one q l :
  scan_finish (mkScan [] q false l) = oneToken (JS.str l).
Proof.
  unfold scan_finish, oneToken. destruct l as [|a l]; reflexivity.
Qed.

(** X8. A pair of double quotes keeps its text together, spaces included:
    a text without a double quote and without a backslash, put between
    quotes, is read as that one token, and as no token when it is empty. *)
Theorem parseArgsStringToArgv_quoted (t : string) :
  Forall (fun c => c <> dquote /\ c <> backslash) (JS.chars t) ->
  parseArgsStringToArgv (inQuotesText t) = oneToken t.
Proof.
  intros Hp. unfold parseArgsStringToArgv, inQuotesText.
  change (JS.chars (String dquote ?s)) with (dquote :: JS.chars s).
  rewrite chars_app. cbn [scan_loop]. unfold scan_start.
  change (scan_step (mkScan [] false false []) dquote) with (mkScan [] true false []).
  rewrite scan_loop_app, (scan_quoted _ _ _ Hp). simpl.
  change (scan_step (mkScan [] true false (JS.chars t)) dquote)
    with (mkScan [] false false (JS.chars t)).
  now rewrite finish_one, str_chars.
Qed.

Lemma scan_escaped l : forall pre q cur,
  scan_loop (mkScan pre q false cur) (escapeAll l) = mkScan pre q false (cur ++ l).
Proof.
  induction l as [|c l IH]; intros pre q cur; simpl.
  - now rewrite app_nil_r.
  - change (scan_step (mkScan pre q false cur) backslash) with (mkScan pre q true cur).
    change (scan_step (mkScan pre q true cur) c) with (mkScan pre q false (cur ++ [c])).
    rewrite IH. now rewrite <- app_assoc.
Qed.

(** X9. A backslash in front of every unit makes any text one token: the
    escaped form of a text, whatever it holds, is read as that text, and as
    no token when the text is empty. *)
Theorem parseArgsStringToArgv_escaped (t : string) :
  parseArgsStringToArgv (JS.str (escapeAll (JS.chars t))) = oneToken t.
Proof.
  unfold parseArgsStringToArgv, scan_start.
  rewrite chars_str, scan_escaped. simpl. now rewrite finish_one, str_chars.
Qed.

(** X10. Tokenizing goes through a separating space: when the scan of [a]
    ends outside quotes and not behind a backslash, the tokens of [a],
    a space and [b] are the tokens of [a] followed by the tokens of [b]. *)
Theorem parseArgsStringToArgv_app (a b : string) :
  balanced a = true ->
  parseArgsStringToArgv (a +:+ String space b)
  = parseArgsStringToArgv a ++ parseArgsStringToArgv b.
Proof.
  unfold balanced, parseArgsStringToArgv. cbv zeta.
  rewrite chars_app, scan_loop_app.
  destruct (scan_loop scan_start (JS.chars a)) as [pre q e cur]. simpl.
  intros Hb. apply andb_true_iff in Hb as [Hq He].
  apply negb_true_iff in Hq, He. subst q e.
  destruct cur as [|c cur].
  - change (scan_step (mkScan pre false false []) space) with (mkScan pre false false []).
    now rewrite scan_loop_args_prefix.
  - change (scan_step (mkScan pre false false (c :: cur)) space)
      with (mkScan (pre ++ [JS.str (c :: cur)]) false false []).
    now rewrite scan_loop_args_prefix.
Qed.

(** ** The constructor of [CommandInstance] on its own *)

Lemma until_close_spec rb l : forall body rest,
  until_close rb l = Some (body, rest) ->
  l = body ++ rb :: rest /\ ~ In rb body.
Proof.
  induction l as [|x l IH]; intros body rest; simpl; [discriminate|].
  destruct (Ascii.eqb_spec x rb) as [-> | Hne].
  - intros [= <- <-]. simpl. tauto.
  - destruct (until_close rb l) as [[body' rest']|]; [|discriminate].
    intros [= <- <-]. destruct (IH body' rest' eq_refl) as [-> Hno].
    split; [reflexivity|]. intros [?|?]; [congruence | tauto].
Qed.

Lemma slice_of_bracketed lb rb body :
  JS.slice_1_m1 (JS.str (lb :: body ++ [rb])) = JS.str body.
Proof.
  unfold JS.slice_1_m1. rewrite chars_str. simpl.
  rewrite length_app. simpl.
  replace (Nat.pred (length body + 1)) with (length body) by lia.
  now rewrite drop_0, take_app_length.
Qed.

Lemma match_all_placeholder lb rb fuel : forall l,
  Forall (placeholder lb rb) (match_all fuel lb rb l).
Proof.
  induction fuel as [|fuel IH]; intros l; simpl; [constructor|].
  destruct l as [|x r]; [constructor|].
  destruct (Ascii.eqb x lb); [|apply IH].
  destruct (until_close rb r) as [[[|y body] rest]|] eqn:Hu; try apply IH.
  constructor; [|apply IH].
  destruct (until_close_spec _ _ _ _ Hu) as [_ Hno].
  exists (y :: body). repeat split.
  - discriminate.
  - exact Hno.
  - apply (slice_of_bracketed lb rb (y :: body)).
Qed.

Lemma substring_from s pre rest :
  JS.chars s = pre ++ rest ->
  JS.substring1 s (Z.of_nat (length pre)) = JS.str rest.
Proof.
  intros Hs. unfold JS.substring1, JS.substring2, JS.clamp, JS.length.
  rewrite chars_length, Hs, length_app.
  replace (Z.to_nat _) with (length rest) by lia.
  replace (Z.to_nat _) with (length pre) by lia.
  rewrite drop_app_length. now rewrite firstn_all.
Qed.

Section ConstructorProperties.

Context {Schema FlagValues : Type}.

(** X11. Every placeholder the constructor records is well formed: an
    entry of [requiredMatches] is an angle bracket pair around a body that
    is not empty and holds no closing angle bracket, an entry of
    [optionalMatches] the same with square brackets, and the parameter
    name cut out of it by [slice(1, -1)] is that body. No parameter name is
    empty. *)
Theorem new_CommandInstance_placeholders (decl desc : string) (o : Schema) :
  Forall (placeholder "<" ">")
    (requiredMatches (new_CommandInstance (FlagValues := FlagValues) decl desc o))
  /\ Forall (placeholder "[" "]")
       (optionalMatches (new_CommandInstance (FlagValues := FlagValues) decl desc o))
  /\ Forall (fun n => n <> "")
       (paramNames (new_CommandInstance (FlagValues := FlagValues) decl desc o)).
Proof.
  assert (Hnames : forall lb rb ms,
            Forall (placeholder lb rb) ms ->
            Forall (fun n => n <> "") (map JS.slice_1_m1 ms)).
  { intros lb rb ms H. induction H as [|m ms (body & Hne & _ & _ & Hs) _ IH]; simpl;
      constructor; [|exact IH].
    rewrite Hs, str_nil_iff. exact Hne. }
  unfold paramNames, new_CommandInstance, matches. cbn [requiredMatches optionalMatches].
  split; [apply match_all_placeholder|]. split; [apply match_all_placeholder|].
  apply Forall_app. split; eapply Hnames; apply match_all_placeholder.
Qed.

(** X12. For a declaration that holds a space, the name of the constructed
    command is the text before the first space, which is also the head that
    dispatch cuts from the same text; the name holds no space, and the name
    followed by the part searched for placeholders is the declaration. *)
Theorem new_CommandInstance_name_is_head (decl desc : string) (o : Schema) :
  In space (JS.chars decl) ->
  name (new_CommandInstance (FlagValues := FlagValues) decl desc o) = fst (splitInput decl)
  /\ ~ In space (JS.chars (name (new_CommandInstance (FlagValues := FlagValues) decl desc o)))
  /\ name (new_CommandInstance (FlagValues := FlagValues) decl desc o)
     +:+ JS.substring1 decl (JS.indexOf decl space) = decl.
Proof.
  intros Hin. unfold new_CommandInstance, splitInput, JS.indexOf. cbn [name].
  destruct (indexOf_from_spec space (JS.chars decl) 0)
    as [[_ Hno] | (pre & post & Hs & Hpre & Hidx)]; [tauto|].
  rewrite Hidx, Z.add_0_l.
  replace (negb (Z.of_nat (length pre) =? -1)%Z) with true
    by (symmetry; apply negb_true_iff, Z.eqb_neq; lia).
  destruct (substring_around decl pre space post Hs) as [H1 _].
  cbn [fst]. rewrite H1. split; [reflexivity|]. split.
  - now rewrite chars_str.
  - rewrite (substring_from decl pre (space :: post) Hs), <- str_app, <- Hs.
    apply str_chars.
Qed.

(** *** Binding, key by key *)

Implicit Types (c : CommandInstance Schema FlagValues) (pos names : list string).

Lemma assign_other (o : gmap string JS.Value) n v k :
  k <> n -> JS.assign o n v !! k = o !! k.
Proof.
  intros H. unfold JS.assign. destruct (String.eqb n "__proto__"); [reflexivity|].
  apply lookup_insert_ne. congruence.
Qed.

Lemma assign_same (o : gmap string JS.Value) n v :
  n <> "__proto__" -> JS.assign o n v !! n = Some v.
Proof.
  intros H. unfold JS.assign. apply String.eqb_neq in H. rewrite H.
  apply lookup_insert_eq.
Qed.

Lemma assign_never_proto (o : gmap string JS.Value) n v :
  JS.assign o n v !! "__proto__" = o !! "__proto__".
Proof.
  unfold JS.assign. destruct (String.eqb_spec n "__proto__") as [-> | Hne];
    [reflexivity | now apply lookup_insert_ne].
Qed.

Lemma fold_put_other names : forall pos acc k,
  ~ In k names ->
  fold_left put (zip names pos) acc !! k = acc !! k.
Proof.
  induction names as [|n names IH]; intros pos acc k Hk; [reflexivity|].
  destruct pos as [|p pos]; [reflexivity|]. simpl.
  rewrite IH by (intros ?; apply Hk; now right).
  unfold put. simpl. apply assign_other. intros ->. apply Hk. now left.
Qed.

Lemma fold_put_proto names : forall pos acc,
  fold_left put (zip names pos) acc !! "__proto__" = acc !! "__proto__".
Proof.
  induction names as [|n names IH]; intros pos acc; [reflexivity|].
  destruct pos as [|p pos]; [reflexivity|]. simpl.
  rewrite IH. unfold put. simpl. apply assign_never_proto.
Qed.

Lemma fold_put_lookup names : forall pos acc i k,
  NoDup names ->
  names !! i = Some k ->
  k <> "__proto__" ->
  fold_left put (zip names pos) acc !! k
  = match pos !! i with Some s => Some (JS.Str s) | None => acc !! k end.
Proof.
  induction names as [|n names IH]; intros pos acc i k Hnd Hi Hk; [discriminate|].
  apply NoDup_cons in Hnd as [Hn Hnd].
  destruct pos as [|p pos]; [now destruct i|]. simpl.
  destruct i as [|i]; simpl in *.
  - injection Hi as ->. rewrite fold_put_other.
    + unfold put. simpl. now apply assign_same.
    + intros Hin. apply Hn. now apply list_elem_of_In.
  - rewrite (IH pos _ i k Hnd Hi Hk).
    destruct (pos !! i); [reflexivity|].
    unfold put. simpl. apply assign_other. intros ->.
    apply Hn. apply list_elem_of_lookup. eauto.
Qed.

(** X13. With pairwise distinct parameter names and the arity satisfied,
    the parameter at place [i] of the declaration (required ones first) is
    bound to the positional at place [i], and is absent from the mapping
    when there is no such positional. The one name that is never a key is
    [__proto__]: the write to it stores nothing, so it is absent whatever
    the positionals are. *)
Theorem bindParams_lookup c pos i k :
  NoDup (paramNames c) ->
  length (requiredMatches c) <= length pos ->
  paramNames c !! i = Some k ->
  bindParams c pos !! k
  = if String.eqb k "__proto__" then None else JS.Str <$> pos !! i.
Proof.
  intros Hnd Hlen Hi. rewrite (bindParams_bound c pos Hlen). unfold bound.
  destruct (String.eqb_spec k "__proto__") as [-> | Hk].
  - now rewrite fold_put_proto, lookup_empty.
  - rewrite (fold_put_lookup _ pos ∅ i k Hnd Hi Hk).
    destruct (pos !! i); reflexivity.
Qed.

Lemma fold_put_origin names : forall pos acc k v,
  fold_left put (zip names pos) acc !! k = Some v ->
  acc !! k = Some v
  \/ exists i s, names !! i = Some k /\ pos !! i = Some s /\ v = JS.Str s.
Proof.
  induction names as [|n names IH]; intros pos acc k v H; [now left|].
  destruct pos as [|p pos]; [now left|]. simpl in H.
  destruct (IH pos _ k v H) as [Hacc | (i & s & Hi & Hs & Hv)].
  - unfold put in Hacc. simpl in Hacc.
    destruct (decide (k = n)) as [-> | Hne].
    + destruct (String.eqb_spec n "__proto__") as [-> | Hp].
      * rewrite assign_never_proto in Hacc. now left.
      * rewrite (assign_same _ _ _ Hp) in Hacc. injection Hacc as <-.
        right. exists 0, p. repeat split.
    + rewrite (assign_other _ _ _ _ Hne) in Hacc. now left.
  - right. exists (S i), s. repeat split; assumption.
Qed.

(** X14. With the arity satisfied, binding stores nothing but positionals:
    every key of the mapping is a declared parameter name, and its value is
    the string found among the positionals at the place of that name, never
    [undefined]. *)
Theorem bindParams_values_are_positionals c pos k v :
  length (requiredMatches c) <= length pos ->
  bindParams c pos !! k = Some v ->
  exists i s, paramNames c !! i = Some k /\ pos !! i = Some s /\ v = JS.Str s.
Proof.
  intros Hlen H. rewrite (bindParams_bound c pos Hlen) in H. unfold bound in H.
  destruct (fold_put_origin _ _ _ _ _ H) as [Hempty | Hex]; [|exact Hex].
  rewrite lookup_empty in Hempty. discriminate.
Qed.

Lemma zip_take_names names : forall pos,
  zip names (take (length names) pos) = zip names pos.
Proof.
  induction names as [|n names IH]; intros pos; [reflexivity|].
  destruct pos as [|p pos]; [reflexivity|]. simpl. now rewrite IH.
Qed.

(** X15. Positionals beyond the declared parameters do not reach the
    mapping: with the arity satisfied, binding all positionals gives the
    mapping that binding the first ones gives, as many as there are
    parameter names. *)
Theorem bindParams_ignores_surplus c pos :
  length (requiredMatches c) <= length pos ->
  bindParams c pos = bindParams c (take (length (paramNames c)) pos).
Proof.
  intros Hlen. rewrite (bindParams_bound c pos Hlen).
  rewrite bindParams_bound.
  - unfold bound. now rewrite zip_take_names.
  - rewrite length_take. unfold paramNames. rewrite length_app, !length_map. lia.
Qed.

End ConstructorProperties.

(** ** More on [execute] and on dispatch *)

Section FurtherDispatch.

Context {Schema FlagValues : Type}.
Variable typeFlag : Schema -> list string -> TypeFlag FlagValues.
Variable search : string -> list (CommandInstance Schema FlagValues) ->
  (CommandInstance Schema FlagValues -> string) -> list (CommandInstance Schema FlagValues).
Variable stringify : JS.Json -> string.

Implicit Types (cmdr : Commander Schema FlagValues) (obj c : CommandInstance Schema FlagValues)
  (tr : list (Event FlagValues)).

Lemma execute_without_handler c possible bot session :
  length (requiredMatches c) <= length (positionalsOf typeFlag c possible) ->
  commandFunction c = None ->
  execute typeFlag c possible bot session
  = ([], JS.Rejected (JS.TypeError "this.commandFunction is not a function")).
Proof.
  unfold execute, positionalsOf. intros Hlen Hf.
  apply Nat.ltb_ge in Hlen. now rewrite Hlen, Hf.
Qed.

(** X16. A command for which [action] was never called cannot answer: when
    dispatch reaches it and the arity is satisfied, the call of the missing
    handler throws a [TypeError], which dispatch logs; nothing is sent. *)
Theorem command_without_action_is_logged cmdr bot session obj args0 :
  dispatchesTo cmdr bot session obj args0 ->
  JS.is_string (before_execute (ctx cmdr) obj bot session) = false ->
  length (requiredMatches obj) <= length (positionalsOf typeFlag obj args0) ->
  commandFunction obj = None ->
  setupCommandParser typeFlag search stringify cmdr bot session
  = ([Logged (JS.TypeError "this.commandFunction is not a function")], Returned).
Proof.
  intros Hd Hhook Hlen Hf.
  rewrite (dispatchesTo_runMatched typeFlag search stringify _ _ _ _ _ Hd).
  unfold runMatched. rewrite (execute_without_handler obj args0 bot session Hlen Hf).
  destruct (before_execute (ctx cmdr) obj bot session); try reflexivity; discriminate.
Qed.

(** X17. A handler that returns nothing, or the empty string, gets no
    reply sent for it: the trace of [execute] is the call of the handler
    alone, and the promise resolves. *)
Theorem execute_silent_result c possible bot session f r :
  commandFunction c = Some f ->
  length (requiredMatches c) <= length (positionalsOf typeFlag c possible) ->
  f (argvOf typeFlag c possible) bot session = Returns r ->
  r = None \/ r = Some "" ->
  execute typeFlag c possible bot session
  = ([Invoked (name c) (argvOf typeFlag c possible)], JS.Resolved JS.Undefined).
Proof.
  unfold execute, positionalsOf, argvOf. intros Hf Hlen Hr Hsilent.
  apply Nat.ltb_ge in Hlen. rewrite Hlen, Hf. cbv zeta. rewrite Hr.
  destruct Hsilent as [-> | ->]; reflexivity.
Qed.

(** X18. The before-execute hook can refuse a command: when dispatch
    reaches a command and the hook answers a string, that string is sent as
    a reply quoting the trigger, and the handler is not called. *)
Theorem before_execute_refuses cmdr bot session obj args0 s :
  dispatchesTo cmdr bot session obj args0 ->
  before_execute (ctx cmdr) obj bot session = JS.Str s ->
  setupCommandParser typeFlag search stringify cmdr bot session
  = ([Sent {| channel := channelId session;
              body := s;
              opts := Some {| type := None; quote := Some (msg_id session) |} |}],
     Returned).
Proof.
  intros Hd Hhook.
  rewrite (dispatchesTo_runMatched typeFlag search stringify _ _ _ _ _ Hd).
  unfold runMatched. now rewrite Hhook.
Qed.

(** *** How dispatch ends *)

Lemma runMatched_returns cmdr obj args0 bot session :
  snd (runMatched typeFlag cmdr obj args0 bot session) = Returned.
Proof.
  unfold runMatched.
  destruct (execute typeFlag obj args0 bot session) as [tr [v|e]];
    destruct (before_execute _ _ _ _); try reflexivity;
    destruct (JS.truthy v); reflexivity.
Qed.

Lemma suggest_never_next head commandArray session :
  snd (suggest search stringify head commandArray session) <> CalledNext.
Proof.
  unfold suggest. destruct (Nat.eqb _ _); [discriminate|].
  destruct (suggestionLines _); discriminate.
Qed.

Lemma matchLoop_never_next cmdr head args0 bot session meet : forall commandArray,
  snd (matchLoop typeFlag search stringify cmdr head args0 meet commandArray bot session)
  <> CalledNext.
Proof.
  induction meet as [|obj meet IH]; intros commandArray; simpl.
  - apply suggest_never_next.
  - destruct (String.eqb head (name obj)); [now rewrite runMatched_returns|].
    destruct (aliases obj) as [al|]; [|discriminate].
    destruct (JS.includes al head); [now rewrite runMatched_returns | apply IH].
Qed.

(** X19. The middleware passes a message on exactly when the message does
    not start with the prefix, and then it does nothing else; a message
    with the prefix never reaches the next middleware, matched or not. *)
Theorem next_iff_no_prefix cmdr bot session :
  (setupCommandParser typeFlag search stringify cmdr bot session = ([], CalledNext)
   <-> JS.startsWith (content session) (prefix cmdr) = false)
  /\ (snd (setupCommandParser typeFlag search stringify cmdr bot session) = CalledNext
      <-> JS.startsWith (content session) (prefix cmdr) = false).
Proof.
  assert (Hsnd : JS.startsWith (content session) (prefix cmdr) = true ->
                 snd (setupCommandParser typeFlag search stringify cmdr bot session)
                 <> CalledNext).
  { intros Hp. unfold setupCommandParser. rewrite Hp. cbn [negb]. cbv zeta.
    destruct (preParse _ _) as [input|]; [|discriminate].
    destruct (splitInput input) as [head args0]. apply matchLoop_never_next. }
  assert (Hno : JS.startsWith (content session) (prefix cmdr) = false ->
                setupCommandParser typeFlag search stringify cmdr bot session
                = ([], CalledNext)).
  { intros Hp. unfold setupCommandParser. now rewrite Hp. }
  destruct (JS.startsWith (content session) (prefix cmdr)) eqn:Hp.
  - specialize (Hsnd eq_refl). split; split; try discriminate.
    + intros H. rewrite H in Hsnd. now contradiction Hsnd.
    + intros H. now contradiction Hsnd.
  - specialize (Hno eq_refl). rewrite Hno. split; split; reflexivity.
Qed.

(** *** What one dispatch can do *)

Lemma handlerCalls_app tr1 tr2 :
  handlerCalls (tr1 ++ tr2) = handlerCalls tr1 + handlerCalls tr2.
Proof. unfold handlerCalls. now rewrite List.filter_app, length_app. Qed.

Lemma sends_app tr1 tr2 : sends (tr1 ++ tr2) = sends tr1 + sends tr2.
Proof. unfold sends. now rewrite List.filter_app, length_app. Qed.

Lemma execute_counts c possible bot session :
  handlerCalls (fst (execute typeFlag c possible bot session)) <= 1
  /\ sends (fst (execute typeFlag c possible bot session)) <= 1.
Proof.
  unfold execute, handlerCalls, sends.
  destruct (Nat.ltb _ _); [simpl; lia|].
  destruct (commandFunction c) as [f|]; [|simpl; lia].
  destruct (f _ bot session) as [[result|]|e]; try (simpl; lia).
  destruct (JS.truthy _); [destruct (sendMessage bot _)|]; simpl; lia.
Qed.

Lemma runMatched_counts cmdr obj args0 bot session :
  handlerCalls (fst (runMatched typeFlag cmdr obj args0 bot session)) <= 1
  /\ sends (fst (runMatched typeFlag cmdr obj args0 bot session)) <= 1.
Proof.
  unfold runMatched.
  pose proof (execute_counts obj args0 bot session) as [Hh Hs].
  destruct (execute typeFlag obj args0 bot session) as [tr [v|e]]; simpl in Hh, Hs.
  - assert (handlerCalls (tr ++ [Emitted "command/execute" (name obj)]) <= 1
            /\ sends (tr ++ [Emitted "command/execute" (name obj)]) <= 1)
      by (rewrite handlerCalls_app, sends_app; unfold handlerCalls, sends in *; simpl; lia).
    destruct (before_execute _ _ _ _); try (destruct (JS.truthy v); simpl; tauto).
    unfold handlerCalls, sends. simpl. lia.
  - assert (handlerCalls (tr ++ [Logged e]) <= 1 /\ sends (tr ++ [Logged e]) <= 1)
      by (rewrite handlerCalls_app, sends_app; unfold handlerCalls, sends in *; simpl; lia).
    destruct (before_execute _ _ _ _); try (simpl; tauto).
    unfold handlerCalls, sends. simpl. lia.
Qed.

Lemma matchLoop_counts cmdr head args0 bot session meet : forall commandArray,
  handlerCalls
    (fst (matchLoop typeFlag search stringify cmdr head args0 meet commandArray bot session))
  <= 1
  /\ sends
       (fst (matchLoop typeFlag search stringify cmdr head args0 meet commandArray
               bot session))
     <= 1.
Proof.
  induction meet as [|obj meet IH]; intros commandArray; simpl.
  - unfold suggest, handlerCalls, sends. destruct (Nat.eqb _ _); [simpl; lia|].
    destruct (suggestionLines _); simpl; lia.
  - destruct (String.eqb head (name obj)); [apply runMatched_counts|].
    destruct (aliases obj) as [al|]; [|unfold handlerCalls, sends; simpl; lia].
    destruct (JS.includes al head); [apply runMatched_counts | apply IH].
Qed.

(** X21. One inbound message makes dispatch call at most one handler and
    send at most one message, whatever the registry, the hooks and the
    handlers are. *)
Theorem dispatch_at_most_one_call_and_send cmdr bot session :
  handlerCalls (fst (setupCommandParser typeFlag search stringify cmdr bot session)) <= 1
  /\ sends (fst (setupCommandParser typeFlag search stringify cmdr bot session)) <= 1.
Proof.
  unfold setupCommandParser.
  destruct (negb (JS.startsWith _ _)); [unfold handlerCalls, sends; simpl; lia|].
  cbv zeta. destruct (preParse _ _) as [input|];
    [|unfold handlerCalls, sends; simpl; lia].
  destruct (splitInput input) as [head args0]. apply matchLoop_counts.
Qed.






(** *** The suggestion *)

Lemma suggestionLines_attached (result : list (CommandInstance Schema FlagValues)) :
  Forall (fun c => aliases c <> None) result ->
  suggestionLines result = JS.Resolved (map lineOf result).
Proof.
  induction 1 as [|c result Hc _ IH]; simpl; [reflexivity|].
  rewrite IH. unfold suggestionLine, lineOf.
  destruct (aliases c) as [al|]; [reflexivity | congruence].
Qed.

(** X23. When every command the fuzzy search returns carries an array of
    aliases, the suggestion is exactly one message quoting the trigger: the
    plain no-matching-command reply when the search returns nothing, and
    otherwise a card that lists, in the order of the search, each command
    with its name, its aliases in parentheses when it has any, and its
    description. *)
Theorem suggest_sends_one_message head commandArray session :
  Forall (fun c => aliases c <> None) (search head commandArray name) ->
  suggest search stringify head commandArray session
  = ([Sent (match search head commandArray name with
            | [] => {| channel := channelId session;
                       body := "找不到相关指令";
                       opts := Some {| type := None; quote := Some (msg_id session) |} |}
            | found =>
                {| channel := channelId session;
                   body := CardTemplete stringify (map lineOf found)
                             (content session) (avatar session);
                   opts := Some {| type := Some card; quote := Some (msg_id session) |} |}
            end)],
     Returned).
Proof.
  intros H. unfold suggest. rewrite (suggestionLines_attached _ H).
  destruct (search head commandArray name); reflexivity.
Qed.

Lemma matchLoop_passes_all cmdr head args0 bot session meet : forall commandArray,
  Forall (passedOver head) meet ->
  matchLoop typeFlag search stringify cmdr head args0 meet commandArray bot session
  = suggest search stringify head (commandArray ++ meet) session.
Proof.
  induction meet as [|obj meet IH]; intros commandArray Hpass; simpl.
  - now rewrite app_nil_r.
  - inversion Hpass as [|? ? [Hname (al & Hal & Hinc)] Hrest]; subst.
    rewrite Hname, Hal, Hinc, (IH _ Hrest). now rewrite <- app_assoc.
Qed.

(** X28. When a prefixed message passes the pre-parse hook and the loop
    passes over every visible command, and the fuzzy search returns none
    but its candidates, dispatch ends with exactly one message quoting the
    trigger: the plain no-matching-command reply when the search returns
    nothing, and otherwise the card of the commands found. Building the
    card does not throw there, because a command that the loop has passed
    over carries its array of aliases. *)
Theorem no_match_sends_one_message cmdr bot session head :
  nothingMatches cmdr bot session head ->
  (forall c,
     In c (search head (meetCommandsOf (_commands cmdr) session) name) ->
     In c (meetCommandsOf (_commands cmdr) session)) ->
  setupCommandParser typeFlag search stringify cmdr bot session
  = ([Sent (match search head (meetCommandsOf (_commands cmdr) session) name with
            | [] => {| channel := channelId session;
                       body := "找不到相关指令";
                       opts := Some {| type := None; quote := Some (msg_id session) |} |}
            | found =>
                {| channel := channelId session;
                   body := CardTemplete stringify (map lineOf found)
                             (content session) (avatar session);
                   opts := Some {| type := Some card; quote := Some (msg_id session) |} |}
            end)],
     Returned).
Proof.
  intros [Hprefix (input & args0 & Hpre & Hsplit & Hpass)] Hsub.
  unfold setupCommandParser. rewrite Hprefix. cbn [negb]. cbv zeta.
  rewrite Hpre, Hsplit, (matchLoop_passes_all _ _ _ _ _ _ _ Hpass). simpl.
  assert (Hal : Forall (fun c => aliases c <> None)
                  (search head (meetCommandsOf (_commands cmdr) session) name)).
  { apply List.Forall_forall. intros c Hc. apply Hsub in Hc.
    rewrite List.Forall_forall in Hpass.
    destruct (Hpass c Hc) as [_ (al & Hal & _)]. congruence. }
  unfold suggest. rewrite (suggestionLines_attached _ Hal).
  destruct (search head (meetCommandsOf (_commands cmdr) session) name); reflexivity.
Qed.

(** *** Disposal *)

Lemma map_get_delete (m : Registry Schema FlagValues) k k' :
  map_get (map_delete m k) k'
  = if same_context k k' then None else map_get m k'.
Proof.
  unfold map_delete. induction m as [|[k0 v] m IH]; simpl.
  - now destruct (same_context k k').
  - destruct (same_context k0 k) eqn:H0; simpl.
    + apply same_context_cid in H0. rewrite IH.
      destruct (same_context k k') eqn:H1; [reflexivity|].
      replace (same_context k0 k') with false; [reflexivity|].
      symmetry. apply Nat.eqb_neq. apply Nat.eqb_neq in H1. congruence.
    + rewrite IH. apply Nat.eqb_neq in H0.
      destruct (same_context k k') eqn:H1; [|reflexivity].
      apply same_context_cid in H1.
      replace (same_context k0 k') with false; [reflexivity|].
      symmetry. apply Nat.eqb_neq. congruence.
Qed.

(** X25. Disposing a scope removes its commands and no others: afterwards
    the scope holds no command, every other scope holds what it held, and
    commands registered from the disposed scope later on start a new list
    that holds exactly them. *)
Theorem dispose_clears_the_scope cmdr k :
  (forall k', scopeCommands (dispose cmdr k) k'
              = if same_context k k' then [] else scopeCommands cmdr k')
  /\ (forall rs : list (Registration Schema),
        scopeCommands (registerAll (dispose cmdr k) rs) k
        = map built (registrationsOf k rs)).
Proof.
  assert (H : forall k', scopeCommands (dispose cmdr k) k'
                         = if same_context k k' then [] else scopeCommands cmdr k').
  { intros k'. unfold scopeCommands, dispose. cbn [_commands].
    rewrite map_get_delete. now destruct (same_context k k'). }
  split; [exact H|]. intros rs.
  rewrite scopeCommands_registerAll, H.
  replace (same_context k k) with true; [reflexivity|].
  symmetry. now apply same_context_cid.
Qed.

End FurtherDispatch.

(** ** The order of the visible commands *)

Section VisibleOrder.

Context {Schema FlagValues : Type}.

Implicit Types (cmdr : Commander Schema FlagValues) (rs : list (Registration Schema))
  (ks : list Context).

(** The entry of a scope after the registrations [rs]. *)
Let entry rs (k : Context) : Context * list (CommandInstance Schema FlagValues) :=
  (k, map built (registrationsOf k rs)).

Lemma registrationsOf_snoc k rs (r : Registration Schema) :
  registrationsOf k (rs ++ [r])
  = registrationsOf k rs ++ (if same_context (reg_caller r) k then [r] else []).
Proof.
  unfold registrationsOf. rewrite List.filter_app. simpl.
  now destruct (same_context (reg_caller r) k).
Qed.

Lemma map_has_entries rs ks k :
  map_has (map (entry rs) ks) k = existsb (fun k0 => same_context k0 k) ks.
Proof. unfold map_has. induction ks as [|k0 ks IH]; simpl; [reflexivity | now rewrite IH]. Qed.

Lemma entries_unchanged rs (r : Registration Schema) ks :
  Forall (fun k0 => same_context k0 (reg_caller r) = false) ks ->
  map (entry (rs ++ [r])) ks = map (entry rs) ks.
Proof.
  induction 1 as [|k0 ks Hk _ IH]; simpl; [reflexivity|]. rewrite IH. f_equal.
  unfold entry. rewrite registrationsOf_snoc.
  replace (same_context (reg_caller r) k0) with false; [now rewrite app_nil_r|].
  symmetry. apply Nat.eqb_neq. apply Nat.eqb_neq in Hk. congruence.
Qed.

Lemma map_push_entries rs (r : Registration Schema) ks :
  distinctScopes ks ->
  existsb (fun k0 => same_context k0 (reg_caller r)) ks = true ->
  map_push (map (entry rs) ks) (reg_caller r) (built r) = map (entry (rs ++ [r])) ks.
Proof.
  induction ks as [|k0 ks IH]; simpl; [discriminate|]. intros [Hk0 Hd] Hex.
  destruct (same_context k0 (reg_caller r)) eqn:H0.
  - rewrite entries_unchanged.
    + f_equal. unfold entry. rewrite registrationsOf_snoc.
      replace (same_context (reg_caller r) k0) with true; [now rewrite map_app|].
      symmetry. apply same_context_cid. apply same_context_cid in H0. congruence.
    + apply same_context_cid in H0. eapply Forall_impl; [exact Hk0|].
      intros k1 H1. apply Nat.eqb_neq. apply Nat.eqb_neq in H1. congruence.
  - simpl in Hex. rewrite (IH Hd Hex). f_equal.
    unfold entry. rewrite registrationsOf_snoc.
    replace (same_context (reg_caller r) k0) with false; [now rewrite app_nil_r|].
    symmetry. apply Nat.eqb_neq. apply Nat.eqb_neq in H0. congruence.
Qed.

Lemma map_set_entries rs ks k v :
  existsb (fun k0 => same_context k0 k) ks = false ->
  map_set (map (entry rs) ks) k v = map (entry rs) ks ++ [(k, v)].
Proof.
  induction ks as [|k0 ks IH]; simpl; [reflexivity|]. intros Hex.
  apply orb_false_iff in Hex as [H0 Hex]. now rewrite H0, IH.
Qed.

Lemma distinctScopes_snoc ks k :
  distinctScopes ks ->
  existsb (fun k0 => same_context k0 k) ks = false ->
  distinctScopes (ks ++ [k]).
Proof.
  induction ks as [|k0 ks IH]; simpl; [intros _ _; split; [constructor | exact I]|].
  intros [Hk0 Hd] Hex. apply orb_false_iff in Hex as [H0 Hex]. split.
  - apply Forall_app. split; [exact Hk0|]. constructor; [|constructor].
    apply Nat.eqb_neq. apply Nat.eqb_neq in H0. congruence.
  - now apply IH.
Qed.

Lemma scopesOf_snoc rs (r : Registration Schema) :
  scopesOf (rs ++ [r])
  = if existsb (fun k => same_context k (reg_caller r)) (scopesOf rs) then scopesOf rs
    else scopesOf rs ++ [reg_caller r].
Proof. unfold scopesOf. now rewrite fold_left_app. Qed.

Lemma registerAll_snoc cmdr rs (r : Registration Schema) :
  registerAll cmdr (rs ++ [r]) = register (registerAll cmdr rs) r.
Proof. unfold registerAll. now rewrite fold_left_app. Qed.

Lemma registry_after_registrations cmdr rs :
  _commands cmdr = [] ->
  _commands (registerAll cmdr rs) = map (entry rs) (scopesOf rs)
  /\ distinctScopes (scopesOf rs).
Proof.
  intros Hempty. induction rs as [|r rs [IH Hd]] using rev_ind.
  - simpl. rewrite Hempty. split; [reflexivity | exact I].
  - rewrite registerAll_snoc, scopesOf_snoc.
    unfold register, command. cbn [fst _commands]. rewrite IH, map_has_entries.
    destruct (existsb _ (scopesOf rs)) eqn:Hex.
    + split; [now apply map_push_entries | exact Hd].
    + split; [|now apply distinctScopes_snoc].
      rewrite map_set_entries by exact Hex. rewrite map_app. simpl.
      rewrite entries_unchanged.
      * f_equal. unfold entry. f_equal. f_equal.
        rewrite registrationsOf_snoc.
        replace (same_context (reg_caller r) (reg_caller r)) with true
          by (symmetry; now apply same_context_cid).
        assert (Hnone : map (built (FlagValues := FlagValues))
                          (registrationsOf (reg_caller r) rs) = []).
        { pose proof (scopeCommands_registerAll rs cmdr (reg_caller r)) as Hsc.
          unfold scopeCommands in Hsc. rewrite IH, Hempty in Hsc. simpl in Hsc.
          assert (Hget : map_get (map (entry rs) (scopesOf rs)) (reg_caller r) = None).
          { apply map_has_get. now rewrite map_has_entries. }
          rewrite Hget in Hsc. simpl in Hsc. now rewrite <- Hsc. }
        apply map_eq_nil in Hnone. now rewrite Hnone.
      * clear -Hex. induction (scopesOf rs) as [|k0 ks IHk]; [constructor|].
        simpl in Hex. apply orb_false_iff in Hex as [H0 Hex].
        constructor; [exact H0 | now apply IHk].
Qed.

Lemma meetCommandsOf_entries rs ks session :
  meetCommandsOf (map (entry rs) ks) session
  = flat_map
      (fun k => if filter k session
                then map (built (FlagValues := FlagValues)) (registrationsOf k rs)
                else [])
      ks.
Proof.
  induction ks as [|k ks IH]; simpl; [reflexivity|]. rewrite IH.
  now destruct (filter k session).
Qed.

(** X26. Dispatch does not go through the commands in the order of their
    registration but scope by scope: starting from an empty registry, the
    visible commands are those of the first scope that registered anything
    (if its filter accepts the session) in the order of their registration,
    then those of the scope that came second, and so on. *)
Theorem visible_commands_scope_by_scope cmdr rs session :
  _commands cmdr = [] ->
  meetCommandsOf (_commands (registerAll cmdr rs)) session
  = flat_map
      (fun k => if filter k session
                then map (built (FlagValues := FlagValues)) (registrationsOf k rs)
                else [])
      (scopesOf rs).
Proof.
  intros Hempty.
  destruct (registry_after_registrations cmdr rs Hempty) as [-> _].
  apply meetCommandsOf_entries.
Qed.

End VisibleOrder.

(** * The model at concrete inputs *)

(** C1, at the failing input. [greet] and [echo] are registered in this
    order and the message is [!echo hi]: the loop compares the head with
    [greet], reads [aliases] of an instance that has none, and the
    middleware is rejected with a [TypeError]. [echo], whose name equals
    the head, is never selected. *)
Lemma second_command_is_never_matched :
  setupCommandParser noFlags findNothing opaqueJson
    (commanderOf [greet; echo] quietBus) reliableBot (incoming "!echo hi")
  = ([], Failed (JS.TypeError "Cannot read properties of undefined (reading 'includes')")).
Proof. vm_compute. reflexivity. Qed.

(** C2, at the failing input. [!greet Alice] runs the handler and sends
    its reply, and that is the whole trace: the 'command/execute'
    notification does not follow. *)
Lemma reply_sent_without_execute_hook :
  setupCommandParser noFlags findNothing opaqueJson
    (commanderOf [greet] quietBus) reliableBot (incoming "!greet Alice")
  = ([Invoked "greet"
        {| parsed := {| flags := tt; positionals := ["Alice"] |};
           params := {[ "name" := JS.Str "Alice" ]} |};
      Sent {| channel := "channel-1"; body := "Hello, Alice"; opts := None |}],
     Returned).
Proof. vm_compute. reflexivity. Qed.

(** C9, at the failing input. With [greet] registered, the misspelt
    [!geret Alice] never reaches the fuzzy search: the loop throws on the
    first command that does not match, and neither a card nor the
    no-matching-command reply is sent. *)
Lemma typo_gets_no_suggestion :
  setupCommandParser noFlags findNothing opaqueJson
    (commanderOf [greet] quietBus) reliableBot (incoming "!geret Alice")
  = ([], Failed (JS.TypeError "Cannot read properties of undefined (reading 'includes')")).
Proof. vm_compute. reflexivity. Qed.

(** C3 as stated fails: the same declaration registered twice from one
    scope leaves two commands named [greet] in the list of that scope. *)
Lemma same_name_registered_twice :
  map name (scopeCommands (registerAll emptyCommander greetTwice) everyone)
  = ["greet"; "greet"]
  /\ ~ NoDup (map name (scopeCommands (registerAll emptyCommander greetTwice) everyone)).
Proof.
  assert (H : map name (scopeCommands (registerAll emptyCommander greetTwice) everyone)
              = ["greet"; "greet"]) by (vm_compute; reflexivity).
  split; [exact H|]. rewrite H. intros Hnd.
  inversion Hnd as [|? ? Hnotin _]; subst. apply Hnotin. constructor.
Qed.

(** C7 as stated fails: the empty string is falsy and is not [undefined],
    and a pre-parse hook that answers it does not cancel dispatch. The
    text to parse becomes empty, no command matches, and the user gets the
    no-matching-command reply. The answer [false] does cancel; the
    middleware then returns, where for a message without the prefix it
    calls the next one. *)
Lemma preparse_empty_string_is_parsed :
  JS.startsWith (content (incoming "!greet Alice")) "!" = true
  /\ JS.falsy (JS.Str "") = true
  /\ JS.Str "" <> JS.Undefined
  /\ setupCommandParser noFlags findNothing opaqueJson
       (commanderOf [] (answeringBus (JS.Str ""))) reliableBot (incoming "!greet Alice")
     = ([Sent {| channel := "channel-1";
                 body := "找不到相关指令";
                 opts := Some {| type := None; quote := Some "msg-1" |} |}],
        Returned)
  /\ setupCommandParser noFlags findNothing opaqueJson
       (commanderOf [] (answeringBus (JS.Bool false))) reliableBot (incoming "!greet Alice")
     = ([], Returned)
  /\ setupCommandParser noFlags findNothing opaqueJson
       (commanderOf [] (answeringBus (JS.Bool false))) reliableBot (incoming "greet Alice")
     = ([], CalledNext).
Proof. repeat split; try reflexivity. discriminate. Qed.

(** The declaration of section 8 with a single positional: one token for two
    required parameters. *)
Lemma execute_missing_required_witness :
  length (positionalsOf noFlags abc "1") < length (requiredMatches abc)
  /\ execute noFlags abc "1" reliableBot (incoming "!cmd 1")
     = ([Sent {| channel := "channel-1";
                 body := "缺少必要参数";
                 opts := Some {| type := None; quote := Some "msg-1" |} |}],
        JS.Resolved JS.Undefined)
  /\ sends (fst (execute noFlags abc "1" reliableBot (incoming "!cmd 1"))) = 1
  /\ handlerCalls (fst (execute noFlags abc "1" reliableBot (incoming "!cmd 1"))) = 0.
Proof.
  assert (H : length (positionalsOf noFlags abc "1") < length (requiredMatches abc))
    by (vm_compute; lia).
  split; [exact H|].
  exact (execute_missing_required noFlags abc "1" reliableBot (incoming "!cmd 1") H).
Defined.

(** The same declaration with three positionals: the handler gets a, b
    and c. *)
Lemma execute_binds_witness :
  length (requiredMatches abc) <= length (positionalsOf noFlags abc "1 2 3")
  /\ bindParams abc (positionalsOf noFlags abc "1 2 3")
     = bound ["a"; "b"; "c"] ["1"; "2"; "3"]
  /\ exists tr,
       fst (execute noFlags abc "1 2 3" reliableBot (incoming "!cmd 1 2 3"))
       = Invoked "cmd"
           {| parsed := {| flags := tt; positionals := ["1"; "2"; "3"] |};
              params := {[ "a" := JS.Str "1"; "b" := JS.Str "2"; "c" := JS.Str "3" ]} |}
         :: tr.
Proof.
  assert (H : length (requiredMatches abc) <= length (positionalsOf noFlags abc "1 2 3"))
    by (vm_compute; lia).
  split; [exact H|].
  exact (proj1 (execute_binds_required_then_optional noFlags)
           abc "1 2 3" reliableBot (incoming "!cmd 1 2 3") _ eq_refl H).
Defined.

(** [!echo echo hi] answers [hi], and [!echo echo] is told that a required
    parameter is missing: the argument that equals the name is gone. *)
Lemma echo_loses_its_argument :
  In (name echo) (positionals (noFlags (options echo) (parseArgsStringToArgv "echo hi")))
  /\ positionalsOf noFlags echo "echo hi" = ["hi"]
  /\ (exists tr,
        fst (execute noFlags echo "echo hi" reliableBot (incoming "!echo echo hi"))
        = Invoked "echo"
            {| parsed := {| flags := tt; positionals := ["hi"] |};
               params := {[ "text" := JS.Str "hi" ]} |}
          :: tr)
  /\ setupCommandParser noFlags findNothing opaqueJson
       (commanderOf [echo] quietBus) reliableBot (incoming "!echo echo hi")
     = ([Invoked "echo"
           {| parsed := {| flags := tt; positionals := ["hi"] |};
              params := {[ "text" := JS.Str "hi" ]} |};
         Sent {| channel := "channel-1"; body := "hi"; opts := None |}],
        Returned)
  /\ execute noFlags echo "echo" reliableBot (incoming "!echo echo")
     = ([Sent (missingRequired (incoming "!echo echo"))], JS.Resolved JS.Undefined).
Proof.
  assert (H : In (name echo)
                (positionals (noFlags (options echo) (parseArgsStringToArgv "echo hi"))))
    by (left; reflexivity).
  assert (H' : In (name echo)
                 (positionals (noFlags (options echo) (parseArgsStringToArgv "echo"))))
    by (left; reflexivity).
  split; [exact H|]. split; [reflexivity|].
  split; [|split; [vm_compute; reflexivity|]].
  - refine (proj2 (proj2 (proj2 (execute_removes_argument_equal_to_name noFlags)
              echo "echo hi" reliableBot (incoming "!echo echo hi") H)) _ _ eq_refl).
    vm_compute. lia.
  - refine (proj1 (proj2 (proj2 (execute_removes_argument_equal_to_name noFlags)
              echo "echo" reliableBot (incoming "!echo echo") H')) _).
    vm_compute. lia.
Defined.

(** A handler that throws: [execute] is rejected, dispatch logs and returns. *)
Lemma handler_error_witness :
  dispatchesTo (commanderOf [failing] quietBus) reliableBot (incoming "!fail") failing ""
  /\ raises failing (argvOf noFlags failing "") reliableBot (incoming "!fail")
       (JS.Thrown "boom")
  /\ exists tr,
       execute noFlags failing "" reliableBot (incoming "!fail")
       = (tr, JS.Rejected (JS.Thrown "boom"))
       /\ setupCommandParser noFlags findNothing opaqueJson
            (commanderOf [failing] quietBus) reliableBot (incoming "!fail")
          = (tr ++ [Logged (JS.Thrown "boom")], Returned).
Proof.
  assert (Hd : dispatchesTo (commanderOf [failing] quietBus) reliableBot
                 (incoming "!fail") failing "").
  { split; [reflexivity|]. exists "fail", "fail", [], [].
    repeat split; try reflexivity. constructor. }
  assert (Hr : raises failing (argvOf noFlags failing "") reliableBot (incoming "!fail")
                 (JS.Thrown "boom")).
  { apply (raised_in_body _ _ _ _ failingHandler); reflexivity. }
  split; [exact Hd|]. split; [exact Hr|].
  refine (handler_error_logged_at_dispatch noFlags findNothing opaqueJson
            _ _ _ _ _ _ Hd eq_refl _ Hr).
  vm_compute. lia.
Defined.

(** A pre-parse hook that answers [false] silences [!greet Alice], and one
    that answers the text [greet Bob] has [greet] run for Bob, whatever the
    message said. *)
Lemma preparse_false_witness :
  JS.falsy (JS.Bool false) = true
  /\ JS.Bool false <> JS.Undefined
  /\ JS.is_string (JS.Bool false) = false
  /\ setupCommandParser noFlags findNothing opaqueJson
       (commanderOf [greet] (answeringBus (JS.Bool false))) reliableBot
       (incoming "!greet Alice")
     = ([], Returned)
  /\ setupCommandParser noFlags findNothing opaqueJson
       (commanderOf [greet] (answeringBus (JS.Str "greet Bob"))) reliableBot
       (incoming "!greet Alice")
     = ([Invoked "greet"
           {| parsed := {| flags := tt; positionals := ["Bob"] |};
              params := {[ "name" := JS.Str "Bob" ]} |};
         Sent {| channel := "channel-1"; body := "Hello, Bob"; opts := None |}],
        Returned).
Proof.
  split; [reflexivity|]. split; [discriminate|]. split; [reflexivity|]. split.
  - apply (proj1 (preparse_veto_cancels_dispatch noFlags findNothing opaqueJson
                    (commanderOf [greet] (answeringBus (JS.Bool false))) reliableBot
                    (incoming "!greet Alice") (JS.Bool false) eq_refl eq_refl));
      [reflexivity | discriminate | reflexivity].
  - rewrite (proj2 (preparse_veto_cancels_dispatch noFlags findNothing opaqueJson
                      (commanderOf [greet] (answeringBus (JS.Str "greet Bob")))
                      reliableBot (incoming "!greet Alice") (JS.Str "greet Bob")
                      eq_refl eq_refl) "greet Bob" eq_refl).
    vm_compute. reflexivity.
Defined.

(** [greet] in front of [echo], head [echo]. *)
Lemma matchLoop_throws_witness :
  aliases greet = None
  /\ String.eqb "echo" (name greet) = false
  /\ matchLoop noFlags findNothing opaqueJson (commanderOf [greet; echo] quietBus)
       "echo" "hi" [greet; echo] [] reliableBot (incoming "!echo hi")
     = ([], Failed (JS.TypeError "Cannot read properties of undefined (reading 'includes')")).
Proof.
  split; [reflexivity|]. split; [reflexivity|].
  apply (matchLoop_throws_on_constructed noFlags findNothing opaqueJson); reflexivity.
Defined.

(** With aliases attached, [!say hello] reaches [echo] past [greet]. *)
Lemma dispatch_first_match_witness :
  dispatchesTo (commanderOf [aliased greet ["hi"]; aliased echo ["say"]] quietBus)
    reliableBot (incoming "!say hello") (aliased echo ["say"]) "hello"
  /\ setupCommandParser noFlags findNothing opaqueJson
       (commanderOf [aliased greet ["hi"]; aliased echo ["say"]] quietBus)
       reliableBot (incoming "!say hello")
     = ([Invoked "echo"
           {| parsed := {| flags := tt; positionals := ["hello"] |};
              params := {[ "text" := JS.Str "hello" ]} |};
         Sent {| channel := "channel-1"; body := "hello"; opts := None |}],
        Returned).
Proof.
  assert (Hd : dispatchesTo
                 (commanderOf [aliased greet ["hi"]; aliased echo ["say"]] quietBus)
                 reliableBot (incoming "!say hello") (aliased echo ["say"]) "hello").
  { split; [reflexivity|].
    exists "say hello", "say", [aliased greet ["hi"]], [].
    split; [reflexivity|]. split; [reflexivity|]. split; [reflexivity|].
    split; [|reflexivity].
    constructor; [|constructor]. split; [reflexivity|].
    exists ["hi"]. split; reflexivity. }
  split; [exact Hd|].
  rewrite (dispatch_first_match_wins noFlags findNothing opaqueJson _ _ _ _ _ Hd).
  vm_compute. reflexivity.
Defined.

(** The declaration [ping] is constructed with the empty name. *)
Lemma new_CommandInstance_ping :
  ~ In space (JS.chars "ping")
  /\ name (new_CommandInstance (Schema := unit) (FlagValues := unit) "ping" "answers pong" tt)
     = "".
Proof.
  assert (H : ~ In space (JS.chars "ping")).
  { intros Hin. vm_compute in Hin. intuition discriminate. }
  split; [exact H|].
  exact (proj1 (new_CommandInstance_without_space "ping" "answers pong" tt H)).
Defined.

(** ** The further properties at concrete inputs *)

(** Two bare words. *)
Lemma joins_back_witness :
  Forall bare ["greet"; "Alice"]
  /\ parseArgsStringToArgv "greet Alice" = ["greet"; "Alice"].
Proof.
  assert (H : Forall bare ["greet"; "Alice"]).
  { repeat constructor; try discriminate. }
  split; [exact H|].
  exact (parseArgsStringToArgv_joins_back ["greet"; "Alice"] H).
Defined.

(** A quoted text with a space in it. *)
Lemma quoted_witness :
  Forall (fun c => c <> dquote /\ c <> backslash) (JS.chars "bar baz")
  /\ parseArgsStringToArgv (inQuotesText "bar baz") = ["bar baz"].
Proof.
  assert (H : Forall (fun c => c <> dquote /\ c <> backslash) (JS.chars "bar baz")).
  { repeat constructor; discriminate. }
  split; [exact H|].
  exact (parseArgsStringToArgv_quoted "bar baz" H).
Defined.

(** A quoted text, a space, two bare words. *)
Lemma app_witness :
  balanced (inQuotesText "a b") = true
  /\ parseArgsStringToArgv (inQuotesText "a b" +:+ String space "c d")
     = ["a b"; "c"; "d"].
Proof.
  split; [reflexivity|].
  exact (parseArgsStringToArgv_app (inQuotesText "a b") "c d" eq_refl).
Defined.

(** The declaration of the greeting scenario. *)
Lemma name_is_head_witness :
  In space (JS.chars "greet <name>")
  /\ name (new_CommandInstance (Schema := unit) (FlagValues := unit)
             "greet <name>" "greets somebody" tt) = "greet".
Proof.
  assert (H : In space (JS.chars "greet <name>")).
  { do 5 right. left. reflexivity. }
  split; [exact H|].
  exact (proj1 (new_CommandInstance_name_is_head (FlagValues := unit)
                  "greet <name>" "greets somebody" tt H)).
Defined.

Lemma abc_names_distinct : NoDup (paramNames abc).
Proof.
  change (NoDup ["a"; "b"; "c"]).
  repeat (constructor; [rewrite ?elem_of_cons, elem_of_nil; intuition discriminate|]).
  constructor.
Qed.

Lemma setProto_names_distinct : NoDup (paramNames setProto).
Proof.
  change (NoDup ["__proto__"; "v"]).
  repeat (constructor; [rewrite ?elem_of_cons, elem_of_nil; intuition discriminate|]).
  constructor.
Qed.

(** Two positionals for [cmd <a> <b> [c]]: b is the second, c is absent;
    and the first parameter of [set <__proto__> <v>] is absent although a
    positional stands at its place. *)
Lemma bindParams_lookup_witness :
  NoDup (paramNames abc)
  /\ bindParams abc ["1"; "2"] !! "b" = Some (JS.Str "2")
  /\ bindParams abc ["1"; "2"] !! "c" = None
  /\ bindParams setProto ["x"; "y"] !! "__proto__" = None
  /\ bindParams setProto ["x"; "y"] !! "v" = Some (JS.Str "y").
Proof.
  split; [exact abc_names_distinct|]. split; [|split; [|split]].
  - refine (bindParams_lookup abc ["1"; "2"] 1 "b" abc_names_distinct _ eq_refl).
    vm_compute. lia.
  - refine (bindParams_lookup abc ["1"; "2"] 2 "c" abc_names_distinct _ eq_refl).
    vm_compute. lia.
  - refine (bindParams_lookup setProto ["x"; "y"] 0 "__proto__"
              setProto_names_distinct _ eq_refl).
    vm_compute. lia.
  - refine (bindParams_lookup setProto ["x"; "y"] 1 "v"
              setProto_names_distinct _ eq_refl).
    vm_compute. lia.
Defined.

Lemma bindParams_values_witness :
  bindParams abc ["1"; "2"; "3"] !! "c" = Some (JS.Str "3")
  /\ exists i s,
       paramNames abc !! i = Some "c" /\ ["1"; "2"; "3"] !! i = Some s
       /\ JS.Str "3" = JS.Str s.
Proof.
  assert (H : bindParams abc ["1"; "2"; "3"] !! "c" = Some (JS.Str "3")) by reflexivity.
  split; [exact H|].
  refine (bindParams_values_are_positionals abc ["1"; "2"; "3"] "c" (JS.Str "3") _ H).
  vm_compute. lia.
Defined.

(** A fourth positional changes nothing in the mapping. *)
Lemma bindParams_surplus_witness :
  length (requiredMatches abc) <= length ["1"; "2"; "3"; "4"]
  /\ bindParams abc ["1"; "2"; "3"; "4"] = bindParams abc ["1"; "2"; "3"].
Proof.
  assert (H : length (requiredMatches abc) <= length ["1"; "2"; "3"; "4"])
    by (vm_compute; lia).
  split; [exact H|].
  exact (bindParams_ignores_surplus abc ["1"; "2"; "3"; "4"] H).
Defined.

(** [greet] registered and left without a handler. *)
Lemma without_action_witness :
  dispatchesTo (commanderOf [unarmed] quietBus) reliableBot (incoming "!greet Alice")
    unarmed "Alice"
  /\ commandFunction unarmed = None
  /\ setupCommandParser noFlags findNothing opaqueJson
       (commanderOf [unarmed] quietBus) reliableBot (incoming "!greet Alice")
     = ([Logged (JS.TypeError "this.commandFunction is not a function")], Returned).
Proof.
  assert (Hd : dispatchesTo (commanderOf [unarmed] quietBus) reliableBot
                 (incoming "!greet Alice") unarmed "Alice").
  { split; [reflexivity|]. exists "greet Alice", "greet", [], [].
    split; [reflexivity|]. split; [reflexivity|]. split; [reflexivity|].
    split; [constructor | reflexivity]. }
  split; [exact Hd|]. split; [reflexivity|].
  refine (command_without_action_is_logged noFlags findNothing opaqueJson
            _ _ _ _ _ Hd eq_refl _ eq_refl).
  vm_compute. lia.
Defined.

(** The handler of [abc] answers nothing. *)
Lemma silent_result_witness :
  length (requiredMatches abc) <= length (positionalsOf noFlags abc "1 2")
  /\ execute noFlags abc "1 2" reliableBot (incoming "!cmd 1 2")
     = ([Invoked "cmd" (argvOf noFlags abc "1 2")], JS.Resolved JS.Undefined).
Proof.
  assert (H : length (requiredMatches abc) <= length (positionalsOf noFlags abc "1 2"))
    by (vm_compute; lia).
  split; [exact H|].
  exact (execute_silent_result noFlags abc "1 2" reliableBot (incoming "!cmd 1 2")
           _ None eq_refl H eq_refl (or_introl eq_refl)).
Defined.

(** A before-execute hook that answers [not now]. *)
Lemma before_execute_witness :
  dispatchesTo (commanderOf [greet] (refusingBus "not now")) reliableBot
    (incoming "!greet Alice") greet "Alice"
  /\ setupCommandParser noFlags findNothing opaqueJson
       (commanderOf [greet] (refusingBus "not now")) reliableBot (incoming "!greet Alice")
     = ([Sent {| channel := "channel-1";
                 body := "not now";
                 opts := Some {| type := None; quote := Some "msg-1" |} |}],
        Returned).
Proof.
  assert (Hd : dispatchesTo (commanderOf [greet] (refusingBus "not now")) reliableBot
                 (incoming "!greet Alice") greet "Alice").
  { split; [reflexivity|]. exists "greet Alice", "greet", [], [].
    split; [reflexivity|]. split; [reflexivity|]. split; [reflexivity|].
    split; [constructor | reflexivity]. }
  split; [exact Hd|].
  exact (before_execute_refuses noFlags findNothing opaqueJson
           _ _ _ _ _ "not now" Hd eq_refl).
Defined.


(** A search that returns [echo] with its alias attached. *)
Lemma suggest_card_witness :
  Forall (fun c => aliases c <> None) (findAll "syn" [aliased echo ["say"]] name)
  /\ suggest findAll opaqueJson "syn" [aliased echo ["say"]] (incoming "!syn hello")
     = ([Sent {| channel := "channel-1";
                 body := CardTemplete opaqueJson
                           [("echo (say)", "repeats its argument")]
                           "!syn hello" "avatar.png";
                 opts := Some {| type := Some card; quote := Some "msg-1" |} |}],
        Returned).
Proof.
  assert (H : Forall (fun c => aliases c <> None)
                (findAll "syn" [aliased echo ["say"]] name)).
  { constructor; [discriminate | constructor]. }
  split; [exact H|].
  exact (suggest_sends_one_message findAll opaqueJson "syn" [aliased echo ["say"]]
           (incoming "!syn hello") H).
Defined.

(** [greet] with an alias attached does not match [!geret Alice]; a search
    that returns its candidates gets the card sent. *)
Lemma no_match_witness :
  nothingMatches (commanderOf [aliased greet ["hi"]] quietBus) reliableBot
    (incoming "!geret Alice") "geret"
  /\ setupCommandParser noFlags findAll opaqueJson
       (commanderOf [aliased greet ["hi"]] quietBus) reliableBot (incoming "!geret Alice")
     = ([Sent {| channel := "channel-1";
                 body := CardTemplete opaqueJson [("greet (hi)", "greets somebody")]
                           "!geret Alice" "avatar.png";
                 opts := Some {| type := Some card; quote := Some "msg-1" |} |}],
        Returned).
Proof.
  assert (H : nothingMatches (commanderOf [aliased greet ["hi"]] quietBus) reliableBot
                (incoming "!geret Alice") "geret").
  { split; [reflexivity|]. exists "geret Alice", "Alice".
    split; [reflexivity|]. split; [reflexivity|].
    constructor; [|constructor]. split; [reflexivity|].
    exists ["hi"]. split; reflexivity. }
  split; [exact H|].
  exact (no_match_sends_one_message noFlags findAll opaqueJson _ _ _ _ H
           (fun c Hc => Hc)).
Defined.

(** C5, at the failing input. For the declaration [set <__proto__> <v>] and
    the positionals x, y the first loop writes x to the key [__proto__] of
    the plain object [params], which stores nothing: the handler is called
    with v = y alone, and no key [__proto__] holds the first positional. *)
Lemma proto_parameter_is_not_bound :
  requiredMatches setProto = ["<__proto__>"; "<v>"]
  /\ paramNames setProto = ["__proto__"; "v"]
  /\ bindParams setProto ["x"; "y"] = {[ "v" := JS.Str "y" ]}
  /\ bindParams setProto ["x"; "y"] !! "__proto__" = None
  /\ execute noFlags setProto "x y" reliableBot (incoming "!set x y")
     = ([Invoked "set"
           {| parsed := {| flags := tt; positionals := ["x"; "y"] |};
              params := {[ "v" := JS.Str "y" ]} |}],
        JS.Resolved JS.Undefined).
Proof. repeat split. Qed.

(** [hello] and [bye] come from one scope, [ban] from another, registered
    in between: [bye] is visible before [ban]. *)
Lemma scope_by_scope_witness :
  _commands emptyCommander = []
  /\ map name
       (meetCommandsOf (_commands (registerAll emptyCommander interleaved))
          (incoming "!bye Bob"))
     = ["hello"; "bye"; "ban"].
Proof.
  split; [reflexivity|].
  rewrite (visible_commands_scope_by_scope emptyCommander interleaved
             (incoming "!bye Bob") eq_refl).
  vm_compute. reflexivity.
Defined.
